(** * Ring focus / drag-rotate components of the jewellery-box scene

    A shallow embedding of [components.js]: the [ring-manager] system, the
    [ring-focus] component and the [drag-rotate] component, together with
    the browser machinery they rely on (the [requestAnimationFrame] queue,
    the window events they dispatch and receive, the per-frame [tick]),
    and, for the life cycle of the components, the event listeners they
    register and release.

    The scene is modelled with exact rationals ([Qc]) in the place of
    JavaScript's numbers: the statements about the control flow, the
    flags, the queue and the listeners do not depend on the arithmetic,
    the statements about the values of coordinates and angles are
    statements of exact arithmetic.  Where rounding makes a difference
    to what the program does, the same expressions are evaluated in
    binary64, the arithmetic of the program, in the module [Binary64].
    Entities are identified by their index in the scene's entity list. *)

From Stdlib Require Import PrimFloat.
From Stdlib Require Import QArith Qcanon Lqa.
From stdpp Require Import base list numbers.

Local Open Scope Qc_scope.

(* Decimal literals of binary64 stand for the nearest binary64 value. *)
#[local] Set Warnings "-inexact-float".

(** ** Numbers *)

(** A decimal literal [n/d]. *)
Definition num (n : Z) (d : positive) : Qc := Q2Qc (n # d).

(** The JavaScript comparison [x < y] on numbers. *)
Definition num_lt (x y : Qc) : bool :=
  match x ?= y with
  | Lt => true
  | _ => false
  end.

Module Math.
(** [Math.max(a, b)] and [Math.min(a, b)] on two numbers. *)
Definition max (a b : Qc) : Qc := if num_lt a b then b else a.
Definition min (a b : Qc) : Qc := if num_lt b a then b else a.
(** [Math.pow(x, n)] for a natural exponent. *)
Definition pow (x : Qc) (n : nat) : Qc := Qcpower x n.
End Math.

(** ** The parts of three.js the components call

    three.js is a library the repository loads, its source is not part of
    the repository.  The definitions follow the library's own code:
    [Vector3.lerpVectors(v1, v2, a)] sets each component to
    [v1 + (v2 - v1) * a], [MathUtils.lerp(x, y, t)] is [(1 - t) * x + t * y].
    [clone()] is the identity on immutable values. *)
Module THREE.

Module Vector3.
Record t : Type := mk { x : Qc; y : Qc; z : Qc }.

Definition add (a b : t) : t :=
  mk (x a + x b) (y a + y b) (z a + z b).
Definition multiplyScalar (a : t) (s : Qc) : t :=
  mk (x a * s) (y a * s) (z a * s).
Definition lerpVectors (v1 v2 : t) (alpha : Qc) : t :=
  mk (x v1 + (x v2 - x v1) * alpha)
     (y v1 + (y v2 - y v1) * alpha)
     (z v1 + (z v2 - z v1) * alpha).
Definition set_y (a : t) (v : Qc) : t := mk (x a) v (z a).
End Vector3.

Module Euler.
Record t : Type := mk { x : Qc; y : Qc; z : Qc }.
Definition set_y (a : t) (v : Qc) : t := mk (x a) v (z a).
End Euler.

Module MathUtils.
Definition lerp (x y t : Qc) : Qc := (1 - t) * x + t * y.
End MathUtils.

(** The local transform of an entity: [el.object3D]. *)
Record Object3D : Type := mkObject3D {
  position : Vector3.t;
  scale : Vector3.t;
  rotation : Euler.t
}.

End THREE.

Import THREE.

Definition set_position (p : Vector3.t) (o : Object3D) : Object3D :=
  mkObject3D p (scale o) (rotation o).
Definition set_scale (v : Vector3.t) (o : Object3D) : Object3D :=
  mkObject3D (position o) v (rotation o).
Definition set_rotation (r : Euler.t) (o : Object3D) : Object3D :=
  mkObject3D (position o) (scale o) r.

(** ** The [ring-manager] system *)

Record RingManager : Type := mkRingManager {
  busy : bool;               (* true while any ring is animating or focused *)
  focusedEl : option nat     (* currently focused element *)
}.

Module manager.
Definition init : RingManager := mkRingManager false None.
Definition setBusy (v : bool) (m : RingManager) : RingManager :=
  mkRingManager v (focusedEl m).
Definition isBusy (m : RingManager) : bool := busy m.
Definition setFocused (el : nat) (m : RingManager) : RingManager :=
  mkRingManager (busy m) (Some el).
Definition getFocused (m : RingManager) : option nat := focusedEl m.
Definition clearFocused (m : RingManager) : RingManager :=
  mkRingManager (busy m) None.
End manager.

(** ** Component state *)

(** The fields of a [ring-focus] component. *)
Record RingFocus : Type := mkRingFocus {
  originalPos : Vector3.t;
  originalScale : Vector3.t;
  originalRot : Euler.t;
  isFocused : bool;
  isAnimating : bool
}.

(** The fields of a [drag-rotate] component; [sensitivity] is
    [this.data.sensitivity], [_attached] starts out undefined (falsy). *)
Record DragRotate : Type := mkDragRotate {
  sensitivity : Qc;
  dragging : bool;
  startX : Qc;
  startYaw : Qc;
  _attached : bool
}.

(** A ring entity: its transform and its two components. *)
Record Entity : Type := mkEntity {
  object3D : Object3D;
  ring_focus : RingFocus;
  drag_rotate : DragRotate
}.

Definition set_object3D (o : Object3D) (r : Entity) : Entity :=
  mkEntity o (ring_focus r) (drag_rotate r).
Definition set_ring_focus (f : RingFocus) (r : Entity) : Entity :=
  mkEntity (object3D r) f (drag_rotate r).
Definition set_drag_rotate (d : DragRotate) (r : Entity) : Entity :=
  mkEntity (object3D r) (ring_focus r) d.

Definition set_flags (focused animating : bool) (f : RingFocus) : RingFocus :=
  mkRingFocus (originalPos f) (originalScale f) (originalRot f)
              focused animating.
Definition set_isAnimating (b : bool) (f : RingFocus) : RingFocus :=
  set_flags (isFocused f) b f.

(** ** The scene *)

(** The closures handed to [requestAnimationFrame], with the variables
    they capture. *)
Inductive FrameCallback : Type :=
| Animate (el : nat) (startPos target startScale targetScale : Vector3.t)
          (t0 : Qc)
| AnimateBack (el : nat) (startPos endPos startScale endScale : Vector3.t)
              (startRot endRot : Euler.t) (t0 : Qc).

(** The events the components dispatch on [window]. *)
Inductive WindowEvent : Type :=
| show_close_button
| hide_close_button.

Record Scene : Type := mkScene {
  ring_manager : RingManager;        (* sceneEl.systems['ring-manager'] *)
  entities : list Entity;
  rafQueue : list FrameCallback;     (* callbacks awaiting the next frame *)
  dispatched : list WindowEvent      (* events dispatched so far, latest first *)
}.

Definition set_manager (m : RingManager) (s : Scene) : Scene :=
  mkScene m (entities s) (rafQueue s) (dispatched s).
Definition set_entity (el : nat) (r : Entity) (s : Scene) : Scene :=
  mkScene (ring_manager s) (<[el := r]> (entities s)) (rafQueue s)
          (dispatched s).
Definition requestAnimationFrame (cb : FrameCallback) (s : Scene) : Scene :=
  mkScene (ring_manager s) (entities s) (rafQueue s ++ [cb]) (dispatched s).
Definition dispatchEvent (e : WindowEvent) (s : Scene) : Scene :=
  mkScene (ring_manager s) (entities s) (rafQueue s) (e :: dispatched s).

(** Apply [f] to entity [el], when it exists. *)
Definition update_entity (el : nat) (f : Entity → Entity) (s : Scene) : Scene :=
  match entities s !! el with
  | Some r => set_entity el (f r) s
  | None => s
  end.

(** The camera pose read at click time: the results of
    [getWorldPosition] and [getWorldDirection] on the camera entity. *)
Record Camera : Type := mkCamera {
  worldPosition : Vector3.t;
  worldDirection : Vector3.t
}.

(** ** The [ring-focus] component *)

(** [init]: the baseline transform is captured from the entity. *)
Definition ring_focus_init (o : Object3D) : RingFocus :=
  mkRingFocus (position o) (scale o) (rotation o) false false.

Definition duration : Qc := num 600 1.

(** [t => 1 - Math.pow(1 - t, 3)] *)
Definition easeOutCubic (t : Qc) : Qc := 1 - Math.pow (1 - t) 3.

(** [t => t < 0.5 ? 4 * t * t * t : 1 - Math.pow(-2 * t + 2, 3) / 2] *)
Definition easeInOutCubic (t : Qc) : Qc :=
  if num_lt t (num 1 2) then num 4 1 * t * t * t
  else 1 - Math.pow (num (-2) 1 * t + num 2 1) 3 / num 2 1.

(** The normalized progress [Math.min(1, (time - t0) / duration)]. *)
Definition progress (t0 time : Qc) : Qc :=
  Math.min 1 ((time - t0) / duration).

(** The frame callback of [onClick], called with the frame's timestamp. *)
Definition animate (el : nat)
    (startPos target startScale targetScale : Vector3.t) (t0 : Qc)
    (time : Qc) (s : Scene) : Scene :=
  let t := progress t0 time in
  let e := easeOutCubic t in
  (* lerp position & scale *)
  let s := update_entity el (λ r,
             set_object3D
               (set_scale (Vector3.lerpVectors startScale targetScale e)
                  (set_position (Vector3.lerpVectors startPos target e)
                     (object3D r))) r) s in
  if num_lt t 1 then
    requestAnimationFrame
      (Animate el startPos target startScale targetScale t0) s
  else
    let s := update_entity el (λ r,
               set_ring_focus (set_flags true false (ring_focus r)) r) s in
    let s := set_manager (manager.setBusy false (ring_manager s)) s in
    dispatchEvent show_close_button s.

(** [onClick], with [now] the value of [performance.now()] and [cam] the
    camera pose.  The call of [evt.stopPropagation()] acts on the event
    object only and is left out. *)
Definition onClick (el : nat) (now : Qc) (cam : Camera) (s : Scene) : Scene :=
  match entities s !! el with
  | None => s
  | Some r =>
    (* If busy or this already focused/animating, ignore *)
    if manager.isBusy (ring_manager s) then s
    else if isFocused (ring_focus r) || isAnimating (ring_focus r) then s
    else
      (* Set busy lock *)
      let s := set_manager (manager.setBusy true (ring_manager s)) s in
      let s := set_entity el
                 (set_ring_focus (set_isAnimating true (ring_focus r)) r) s in
      let s := set_manager (manager.setFocused el (ring_manager s)) s in
      (* Compute target position: in front of camera with a small offset *)
      let camPos := worldPosition cam in
      let camDir := worldDirection cam in
      let target :=
        Vector3.add camPos (Vector3.multiplyScalar camDir (num 16 10)) in
      let target :=
        Vector3.set_y target
          (Math.max (Vector3.y target)
                    (Vector3.y (originalPos (ring_focus r)) + num 12 10)) in
      let startPos := position (object3D r) in
      let startScale := scale (object3D r) in
      let targetScale := Vector3.multiplyScalar startScale (num 145 100) in
      requestAnimationFrame
        (Animate el startPos target startScale targetScale now) s
  end.

(** The frame callback of [onClose]. *)
Definition animateBack (el : nat)
    (startPos endPos startScale endScale : Vector3.t)
    (startRot endRot : Euler.t) (t0 : Qc)
    (time : Qc) (s : Scene) : Scene :=
  let t := progress t0 time in
  let e := easeInOutCubic t in
  let s := update_entity el (λ r,
             set_object3D
               (mkObject3D
                  (Vector3.lerpVectors startPos endPos e)
                  (Vector3.lerpVectors startScale endScale e)
                  (* lerp Euler rotation components *)
                  (Euler.mk
                     (MathUtils.lerp (Euler.x startRot) (Euler.x endRot) e)
                     (MathUtils.lerp (Euler.y startRot) (Euler.y endRot) e)
                     (MathUtils.lerp (Euler.z startRot) (Euler.z endRot) e)))
               r) s in
  if num_lt t 1 then
    requestAnimationFrame
      (AnimateBack el startPos endPos startScale endScale startRot endRot t0) s
  else
    (* Reset state *)
    let s := update_entity el (λ r,
               set_ring_focus (set_flags false false (ring_focus r)) r) s in
    let s := set_manager (manager.setBusy false (ring_manager s)) s in
    let s := set_manager (manager.clearFocused (ring_manager s)) s in
    dispatchEvent hide_close_button s.

(** [onClose], the listener of the window event [close-focused-ring]. *)
Definition onClose (el : nat) (now : Qc) (s : Scene) : Scene :=
  match entities s !! el with
  | None => s
  | Some r =>
    (* Only respond if this element is the focused one *)
    if negb (isFocused (ring_focus r)) then s
    else if manager.isBusy (ring_manager s) then s
    else
      let s := set_manager (manager.setBusy true (ring_manager s)) s in
      let s := set_entity el
                 (set_ring_focus (set_isAnimating true (ring_focus r)) r) s in
      let startPos := position (object3D r) in
      let endPos := originalPos (ring_focus r) in
      let startScale := scale (object3D r) in
      let endScale := originalScale (ring_focus r) in
      let startRot := rotation (object3D r) in
      let endRot := originalRot (ring_focus r) in
      requestAnimationFrame
        (AnimateBack el startPos endPos startScale endScale startRot endRot
                     now) s
  end.

(** ** The [drag-rotate] component *)

(** A mouse or touch event: [touches] holds the [clientX] of each touch
    point (empty for a mouse event), [clientX] is the event's own. *)
Record PointerEvt : Type := mkPointerEvt {
  touches : list Qc;
  clientX : Qc
}.

(** [(evt.touches && evt.touches[0]) ? evt.touches[0].clientX : evt.clientX] *)
Definition pointerX (evt : PointerEvt) : Qc :=
  match touches evt with
  | t0 :: _ => t0
  | [] => clientX evt
  end.

Definition drag_rotate_init (sens : Qc) (o : Object3D) : DragRotate :=
  mkDragRotate sens false 0 (Euler.y (rotation o)) false.

Definition onPointerDown (m : RingManager) (evt : PointerEvt) (r : Entity)
  : Entity :=
  (* Prevent starting drag if an animation is running *)
  if manager.isBusy m then r
  else
    let d := drag_rotate r in
    set_drag_rotate
      (mkDragRotate (sensitivity d) true (pointerX evt)
                    (Euler.y (rotation (object3D r))) (_attached d)) r.

Definition onPointerMove (evt : PointerEvt) (r : Entity) : Entity :=
  let d := drag_rotate r in
  if negb (dragging d) then r
  else
    let dx := pointerX evt - startX d in
    (* cumulative rotation: add delta to startYaw *)
    set_object3D
      (set_rotation
         (Euler.set_y (rotation (object3D r))
                      (startYaw d + dx * sensitivity d))
         (object3D r)) r.

Definition onPointerUp (r : Entity) : Entity :=
  let d := drag_rotate r in
  set_drag_rotate
    (mkDragRotate (sensitivity d) false (startX d) (startYaw d) (_attached d))
    r.

Definition set_attached (b : bool) (r : Entity) : Entity :=
  let d := drag_rotate r in
  set_drag_rotate
    (mkDragRotate (sensitivity d) (dragging d) (startX d) (startYaw d) b) r.

(** [tick]: attaches or removes the window listeners for [mousemove] and
    [touchmove]; [_attached] records whether they are installed. *)
Definition tick (r : Entity) : Entity :=
  let d := drag_rotate r in
  if dragging d && negb (_attached d) then set_attached true r
  else if negb (dragging d) && _attached d then set_attached false r
  else r.

(** ** The scene as a transition system *)

(** An entity as the scene markup creates it, with both components
    initialised. *)
Definition init_entity (o : Object3D) (sens : Qc) : Entity :=
  mkEntity o (ring_focus_init o) (drag_rotate_init sens o).

Definition init_scene (rings : list (Object3D * Qc)) : Scene :=
  mkScene manager.init ((λ p, init_entity (fst p) (snd p)) <$> rings) [] [].

Definition run_callback (time : Qc) (cb : FrameCallback) (s : Scene) : Scene :=
  match cb with
  | Animate el startPos target startScale targetScale t0 =>
      animate el startPos target startScale targetScale t0 time s
  | AnimateBack el startPos endPos startScale endScale startRot endRot t0 =>
      animateBack el startPos endPos startScale endScale startRot endRot t0
                  time s
  end.

(** One animation frame: the browser calls every queued callback with the
    frame's timestamp; callbacks requested meanwhile wait for the next
    frame. *)
Definition animationFrame (time : Qc) (s : Scene) : Scene :=
  fold_left (λ s cb, run_callback time cb s) (rafQueue s)
            (mkScene (ring_manager s) (entities s) [] (dispatched s)).

(** The window event [close-focused-ring] reaches the [onClose] listener
    of every ring, one after the other, in registration order. *)
Definition dispatchClose (now : Qc) (s : Scene) : Scene :=
  fold_left (λ s el, onClose el now s) (seq 0 (length (entities s))) s.

Definition map_entities (f : Entity → Entity) (s : Scene) : Scene :=
  mkScene (ring_manager s) (f <$> entities s) (rafQueue s) (dispatched s).

Inductive Event : Type :=
| Click (el : nat) (now : Qc) (cam : Camera)
| CloseFocusedRing (now : Qc)
| AnimationFrame (time : Qc)
| PointerDown (el : nat) (evt : PointerEvt)
| PointerMove (evt : PointerEvt)
| PointerUp
| Tick.

(** One turn of the event loop.  A window-level move reaches the rings
    whose move listeners are attached, a window-level release reaches
    every ring, and [Tick] is the per-frame [tick] of every component. *)
Definition step (s : Scene) (ev : Event) : Scene :=
  match ev with
  | Click el now cam => onClick el now cam s
  | CloseFocusedRing now => dispatchClose now s
  | AnimationFrame time => animationFrame time s
  | PointerDown el evt =>
      update_entity el (onPointerDown (ring_manager s) evt) s
  | PointerMove evt =>
      map_entities
        (λ r, if _attached (drag_rotate r) then onPointerMove evt r else r) s
  | PointerUp => map_entities onPointerUp s
  | Tick => map_entities tick s
  end.

Definition run (s : Scene) (evs : list Event) : Scene := fold_left step evs s.

(** The states the scene can be in: any run of events from the initial
    scene. *)
Definition reachable (s : Scene) : Prop :=
  ∃ rings evs, s = run (init_scene rings) evs.

(** ** Auxiliary notions used in the statements *)

(** The frame with timestamp [time] is the last one of an animation that
    started at [t0]: the callback's test [t < 1] fails. *)
Definition completes (t0 time : Qc) : Prop :=
  num_lt (progress t0 time) 1 = false.

(** The baseline transform a ring stores at [init]. *)
Definition baseline (r : Entity) : Object3D :=
  mkObject3D (originalPos (ring_focus r)) (originalScale (ring_focus r))
             (originalRot (ring_focus r)).

(** A ring is active when it is focused or animating. *)
Definition active (r : Entity) : bool :=
  isFocused (ring_focus r) || isAnimating (ring_focus r).

(** The target of the focus animation: the camera's world position plus
    1.6 times the vector [getWorldDirection] returned, its height at
    least the original height plus 1.2. *)
Definition focus_target (cam : Camera) (r : Entity) : Vector3.t :=
  let p := worldPosition cam in
  let d := worldDirection cam in
  Vector3.mk
    (Vector3.x p + Vector3.x d * num 16 10)
    (Math.max (Vector3.y p + Vector3.y d * num 16 10)
              (Vector3.y (originalPos (ring_focus r)) + num 12 10))
    (Vector3.z p + Vector3.z d * num 16 10).

(** What the ring-focus logic reads of an entity: the component's fields
    and the position and scale of the transform (not the rotation, which
    dragging changes at any time). *)
Definition focus_view (r : Entity) : RingFocus * Vector3.t * Vector3.t :=
  (ring_focus r, position (object3D r), scale (object3D r)).

(** A queued callback belongs to a ring that is animating; a focus
    animation starts from the baseline scale and aims at 1.45 times it, a
    close animation aims at the baseline transform. *)
Definition callback_inv (s : Scene) (cb : FrameCallback) : Prop :=
  match cb with
  | Animate el _ _ startScale targetScale _ =>
      ∃ r, entities s !! el = Some r
           ∧ isAnimating (ring_focus r) = true
           ∧ startScale = originalScale (ring_focus r)
           ∧ targetScale =
               Vector3.multiplyScalar (originalScale (ring_focus r))
                                      (num 145 100)
  | AnimateBack el _ endPos _ endScale _ endRot _ =>
      ∃ r, entities s !! el = Some r
           ∧ isAnimating (ring_focus r) = true
           ∧ mkObject3D endPos endScale endRot = baseline r
  end.

(** The invariant of the scene: the session is busy exactly while one
    callback is queued, and a ring that is neither focused nor animating
    sits at its baseline position with its baseline scale. *)
Record scene_inv (s : Scene) : Prop := mk_scene_inv {
  inv_queue :
    (manager.isBusy (ring_manager s) = false ∧ rafQueue s = [])
    ∨ (manager.isBusy (ring_manager s) = true
       ∧ ∃ cb, rafQueue s = [cb] ∧ callback_inv s cb);
  inv_idle :
    ∀ el r, entities s !! el = Some r → active r = false →
      position (object3D r) = originalPos (ring_focus r)
      ∧ scale (object3D r) = originalScale (ring_focus r)
}.

(** The yaw of a ring: its rotation about the vertical axis. *)
Definition yaw (r : Entity) : Qc := Euler.y (rotation (object3D r)).

(** One whole gesture with the mouse: press at [x0], move to [x1],
    release. *)
Definition gesture (m : RingManager) (x0 x1 : Qc) (r : Entity) : Entity :=
  onPointerUp
    (onPointerMove (mkPointerEvt [] x1)
       (onPointerDown m (mkPointerEvt [] x0) r)).

(** ** A sample scene: three rings in the box, the camera in front *)

Definition vec (a b c : Qc) : Vector3.t := Vector3.mk a b c.

Definition sample_ring (px : Qc) : Object3D * Qc :=
  (mkObject3D (vec px (num 1 2) 0) (vec 1 1 1) (Euler.mk 0 0 0), num 12 1000).

Definition sample_rings : list (Object3D * Qc) :=
  [sample_ring (num (-1) 2); sample_ring 0; sample_ring (num 1 2)].

Definition sample_camera : Camera :=
  mkCamera (vec 0 (num 16 10) (num 4 1)) (vec 0 0 (num (-1) 1)).

Definition mouse (x : Z) : PointerEvt := mkPointerEvt [] (num x 1).

Definition sample_entity : Entity :=
  init_entity (sample_ring (num (-1) 2)).1 (sample_ring (num (-1) 2)).2.

Definition sample_scene : Scene := init_scene sample_rings.

(** Ring 0 was clicked at time 0, its focus animation is in flight. *)
Definition sample_focusing : Scene :=
  run sample_scene [Click 0 0 sample_camera].

(** Two frames later the animation is over and ring 0 is focused. *)
Definition sample_focused : Scene :=
  run sample_focusing [AnimationFrame (num 300 1); AnimationFrame (num 600 1)].

(** ** Notions used for the further properties *)

(** The ring a queued callback animates, the time its animation started
    and whether it is the return animation. *)
Definition callback_el (cb : FrameCallback) : nat :=
  match cb with
  | Animate el _ _ _ _ _ => el
  | AnimateBack el _ _ _ _ _ _ _ => el
  end.

Definition callback_t0 (cb : FrameCallback) : Qc :=
  match cb with
  | Animate _ _ _ _ _ t0 => t0
  | AnimateBack _ _ _ _ _ _ _ t0 => t0
  end.

Definition closing (cb : FrameCallback) : bool :=
  match cb with
  | Animate _ _ _ _ _ _ => false
  | AnimateBack _ _ _ _ _ _ _ _ => true
  end.

(** How often an event was dispatched on [window]. *)
Definition is_show (e : WindowEvent) : bool :=
  match e with show_close_button => true | hide_close_button => false end.

Definition shown (s : Scene) : nat :=
  length (filter (λ e, is_show e = true) (dispatched s)).

Definition hidden (s : Scene) : nat :=
  length (filter (λ e, is_show e = false) (dispatched s)).

(** The number of rings whose [isFocused] flag is set. *)
Definition focused_flag (r : Entity) : nat :=
  if isFocused (ring_focus r) then 1%nat else 0%nat.

Definition focused_count (s : Scene) : nat :=
  sum_list (focused_flag <$> entities s).

(** The flags of the rings agree with the queue, the manager and the
    events dispatched so far. *)
Record flags_inv (s : Scene) : Prop := mk_flags_inv {
  fi_animating :
    ∀ el r, entities s !! el = Some r →
      isAnimating (ring_focus r) = true →
      ∃ cb, rafQueue s = [cb] ∧ callback_el cb = el
            ∧ isFocused (ring_focus r) = closing cb;
  fi_focusedEl :
    ∀ el, manager.getFocused (ring_manager s) = Some el →
      ∃ r, entities s !! el = Some r ∧ active r = true;
  fi_count : shown s = (hidden s + focused_count s)%nat
}.

(** The events of the pointer and of the per-frame tick, which only the
    [drag-rotate] components handle. *)
Definition is_drag_event (ev : Event) : bool :=
  match ev with
  | PointerDown _ _ | PointerMove _ | PointerUp | Tick => true
  | _ => false
  end.

(** Everything of an entity but its yaw and the state of its
    [drag-rotate] component. *)
Definition non_drag_view (r : Entity)
  : RingFocus * Vector3.t * Vector3.t * Qc * Qc :=
  (ring_focus r, position (object3D r), scale (object3D r),
   Euler.x (rotation (object3D r)), Euler.z (rotation (object3D r))).

(** ** Event listeners and the life cycle of the components

    The components subscribe to events in [init], [tick] and [remove].
    A listener is identified by the target it is added to, the event
    type and the callback (the [passive] option takes no part in
    matching listeners and is left out); each target keeps, for each
    type, the list of its callbacks in the order of registration. *)

Inductive Target : Type :=
| Window
| El (el : nat).

Inductive EventType : Type :=
| click
| close_focused_ring
| mousedown
| touchstart
| mouseup
| touchend
| mousemove
| touchmove.

(** The bound methods the components register, one set per entity. *)
Inductive Callback : Type :=
| ring_focus_onClick (el : nat)
| ring_focus_onClose (el : nat)
| drag_rotate_onPointerDown (el : nat)
| drag_rotate_onPointerMove (el : nat)
| drag_rotate_onPointerUp (el : nat).

#[global] Instance Target_eq_dec : EqDecision Target.
Proof. solve_decision. Defined.

#[global] Instance EventType_eq_dec : EqDecision EventType.
Proof. solve_decision. Defined.

#[global] Instance Callback_eq_dec : EqDecision Callback.
Proof. solve_decision. Defined.

Definition Registry : Type := Target → EventType → list Callback.

Definition no_listeners : Registry := λ _ _, [].

(** [target.addEventListener(type, cb)]: a listener that is already
    registered is not added again. *)
Definition addEventListener (t : Target) (ty : EventType) (cb : Callback)
    (reg : Registry) : Registry :=
  λ t' ty',
    if decide (t' = t ∧ ty' = ty) then
      if decide (cb ∈ reg t ty) then reg t ty else reg t ty ++ [cb]
    else reg t' ty'.

(** [target.removeEventListener(type, cb)]: no effect when the listener
    is not registered. *)
Definition removeEventListener (t : Target) (ty : EventType) (cb : Callback)
    (reg : Registry) : Registry :=
  λ t' ty',
    if decide (t' = t ∧ ty' = ty) then filter (λ c, c ≠ cb) (reg t ty)
    else reg t' ty'.

(** The subscriptions of [ring-focus]: [init] and [remove]. *)
Definition ring_focus_listen (el : nat) (reg : Registry) : Registry :=
  addEventListener Window close_focused_ring (ring_focus_onClose el)
    (addEventListener (El el) click (ring_focus_onClick el) reg).

Definition ring_focus_remove (el : nat) (reg : Registry) : Registry :=
  removeEventListener Window close_focused_ring (ring_focus_onClose el)
    (removeEventListener (El el) click (ring_focus_onClick el) reg).

(** The subscriptions of [drag-rotate]: [init], [tick] and [remove]. *)
Definition drag_rotate_listen (el : nat) (reg : Registry) : Registry :=
  addEventListener Window touchend (drag_rotate_onPointerUp el)
    (addEventListener Window mouseup (drag_rotate_onPointerUp el)
       (addEventListener (El el) touchstart (drag_rotate_onPointerDown el)
          (addEventListener (El el) mousedown (drag_rotate_onPointerDown el)
             reg))).

Definition tick_listeners (el : nat) (r : Entity) (reg : Registry)
  : Registry :=
  let d := drag_rotate r in
  if dragging d && negb (_attached d) then
    addEventListener Window touchmove (drag_rotate_onPointerMove el)
      (addEventListener Window mousemove (drag_rotate_onPointerMove el) reg)
  else if negb (dragging d) && _attached d then
    removeEventListener Window touchmove (drag_rotate_onPointerMove el)
      (removeEventListener Window mousemove (drag_rotate_onPointerMove el)
         reg)
  else reg.

Definition drag_rotate_remove (el : nat) (r : Entity) (reg : Registry)
  : Registry :=
  let reg :=
    removeEventListener Window touchend (drag_rotate_onPointerUp el)
      (removeEventListener Window mouseup (drag_rotate_onPointerUp el)
         (removeEventListener (El el) touchstart
            (drag_rotate_onPointerDown el)
            (removeEventListener (El el) mousedown
               (drag_rotate_onPointerDown el) reg))) in
  if _attached (drag_rotate r) then
    removeEventListener Window touchmove (drag_rotate_onPointerMove el)
      (removeEventListener Window mousemove (drag_rotate_onPointerMove el)
         reg)
  else reg.

(** The page: the scene, the listeners registered and the components
    that were removed (the framework calls [tick] and [remove] on
    attached components only). *)
Record Page : Type := mkPage {
  scene : Scene;
  listeners : Registry;
  focus_removed : list nat;
  drag_removed : list nat
}.

(** The target and the type under which the browser dispatches an event
    of the scene; a pointer event with touch points is a touch event. *)
Definition event_target (ev : Event) : Target :=
  match ev with
  | Click el _ _ => El el
  | PointerDown el _ => El el
  | _ => Window
  end.

Definition event_type (ev : Event) : EventType :=
  match ev with
  | Click _ _ _ => click
  | CloseFocusedRing _ => close_focused_ring
  | PointerDown _ evt =>
      match touches evt with [] => mousedown | _ => touchstart end
  | PointerMove evt =>
      match touches evt with [] => mousemove | _ => touchmove end
  | _ => mouseup
  end.

(** Calling a registered callback with the event it is registered for;
    the components register no callback for an event of another kind. *)
Definition invoke (cb : Callback) (ev : Event) (s : Scene) : Scene :=
  match cb, ev with
  | ring_focus_onClick el, Click _ now cam => onClick el now cam s
  | ring_focus_onClose el, CloseFocusedRing now => onClose el now s
  | drag_rotate_onPointerDown el, PointerDown _ evt =>
      update_entity el (onPointerDown (ring_manager s) evt) s
  | drag_rotate_onPointerMove el, PointerMove evt =>
      update_entity el (onPointerMove evt) s
  | drag_rotate_onPointerUp el, PointerUp => update_entity el onPointerUp s
  | _, _ => s
  end.

(** The browser calls the listeners of the event's target for the
    event's type, in the order of registration. *)
Definition deliver (ev : Event) (reg : Registry) (s : Scene) : Scene :=
  fold_left (λ s cb, invoke cb ev s) (reg (event_target ev) (event_type ev))
            s.

(** The [tick] of one [drag-rotate] component, with its effect on the
    listeners. *)
Definition page_tick_el (p : Page) (el : nat) : Page :=
  if decide (el ∈ drag_removed p) then p
  else
    match entities (scene p) !! el with
    | Some r =>
        mkPage (set_entity el (tick r) (scene p))
               (tick_listeners el r (listeners p))
               (focus_removed p) (drag_removed p)
    | None => p
    end.

Inductive PageEvent : Type :=
| Dom (ev : Event)
| RemoveRingFocus (el : nat)
| RemoveDragRotate (el : nat).

Definition page_step (p : Page) (pev : PageEvent) : Page :=
  match pev with
  | Dom (AnimationFrame time) =>
      mkPage (animationFrame time (scene p)) (listeners p)
             (focus_removed p) (drag_removed p)
  | Dom Tick =>
      fold_left page_tick_el (seq 0 (length (entities (scene p)))) p
  | Dom ev =>
      mkPage (deliver ev (listeners p) (scene p)) (listeners p)
             (focus_removed p) (drag_removed p)
  | RemoveRingFocus el =>
      mkPage (scene p) (ring_focus_remove el (listeners p))
             (el :: focus_removed p) (drag_removed p)
  | RemoveDragRotate el =>
      match entities (scene p) !! el with
      | Some r =>
          mkPage (scene p) (drag_rotate_remove el r (listeners p))
                 (focus_removed p) (el :: drag_removed p)
      | None => p
      end
  end.

(** The page after the framework initialised both components of every
    ring, in the order of the entities. *)
Definition page_init (rings : list (Object3D * Qc)) : Page :=
  mkPage (init_scene rings)
         (fold_left (λ reg el, drag_rotate_listen el (ring_focus_listen el reg))
                    (seq 0 (length rings)) no_listeners)
         [] [].

Definition page_run (p : Page) (pevs : list PageEvent) : Page :=
  fold_left page_step pevs p.

(** What the listeners of a page with [n] rings are: those [init]
    registered for the components not removed, and the move listeners of
    the rings whose [_attached] flag is set. *)
Definition live (removed : list nat) (n : nat) : list nat :=
  filter (λ el, el ∉ removed) (seq 0 n).

Definition base_listeners (n : nat) (fr dr : list nat) (t : Target)
    (ty : EventType) : list Callback :=
  match t, ty with
  | El el, click =>
      if decide (el ∈ live fr n) then [ring_focus_onClick el] else []
  | Window, close_focused_ring => ring_focus_onClose <$> live fr n
  | El el, mousedown | El el, touchstart =>
      if decide (el ∈ live dr n) then [drag_rotate_onPointerDown el] else []
  | Window, mouseup | Window, touchend => drag_rotate_onPointerUp <$> live dr n
  | _, _ => []
  end.

Definition is_move (ty : EventType) : bool :=
  match ty with mousemove | touchmove => true | _ => false end.

Record page_inv (p : Page) : Prop := mk_page_inv {
  pi_base :
    ∀ t ty, is_move ty = false ∨ t ≠ Window →
      listeners p t ty =
        base_listeners (length (entities (scene p))) (focus_removed p)
                       (drag_removed p) t ty;
  pi_move_nodup :
    ∀ ty, is_move ty = true → NoDup (listeners p Window ty);
  pi_move :
    ∀ ty cb, is_move ty = true →
      (cb ∈ listeners p Window ty ↔
       ∃ el r, cb = drag_rotate_onPointerMove el
               ∧ (el ∉ drag_removed p)
               ∧ entities (scene p) !! el = Some r
               ∧ _attached (drag_rotate r) = true)
}.

(** What the [init] of the two components of ring [k] adds to the
    listeners of [k] rings. *)
Definition init_adds (k : nat) (t : Target) (ty : EventType)
  : list Callback :=
  match t, ty with
  | El el, click => if decide (el = k) then [ring_focus_onClick k] else []
  | Window, close_focused_ring => [ring_focus_onClose k]
  | El el, mousedown | El el, touchstart =>
      if decide (el = k) then [drag_rotate_onPointerDown k] else []
  | Window, mouseup | Window, touchend => [drag_rotate_onPointerUp k]
  | _, _ => []
  end.

(** The ring whose component registered a callback. *)
Definition callback_ring (cb : Callback) : nat :=
  match cb with
  | ring_focus_onClick el | ring_focus_onClose el
  | drag_rotate_onPointerDown el | drag_rotate_onPointerMove el
  | drag_rotate_onPointerUp el => el
  end.

(** ** The camera entity

    three.js and A-Frame are libraries the repository loads.  In A-Frame
    the [object3D] of an entity is a [THREE.Group], and the camera is a
    child of the group of the entity that carries the [camera]
    component.  [Object3D.getWorldDirection] returns the direction of the
    object's positive z axis in world space, and a camera looks along
    its negative z axis (only [Camera.getWorldDirection] negates the
    vector).  [onClick] calls [getWorldDirection] on
    [cameraEl.object3D], the group: the vector it reads is the opposite
    of the direction the camera looks in. *)

(** Where the camera is and the direction it looks in. *)
Record CameraPose : Type := mkCameraPose {
  eye : Vector3.t;
  looking : Vector3.t
}.

Definition negate (v : Vector3.t) : Vector3.t :=
  Vector3.mk (- Vector3.x v) (- Vector3.y v) (- Vector3.z v).

(** What [onClick] reads of a camera entity with the pose [c]. *)
Definition camera_entity (c : CameraPose) : Camera :=
  mkCamera (eye c) (negate (looking c)).

(** The target as the specification words it: 1.6 units from the camera
    along its forward direction, the height at least the original height
    plus 1.2. *)
Definition target_in_front (c : CameraPose) (r : Entity) : Vector3.t :=
  focus_target (mkCamera (eye c) (looking c)) r.

(** The camera at height 1.6, four units in front of the box, looking at
    it along -z. *)
Definition facing_camera : CameraPose :=
  mkCameraPose (vec 0 (num 16 10) (num 4 1)) (vec 0 0 (num (-1) 1)).

(** ** Binary64 arithmetic

    The numbers of the program are IEEE 754 binary64 values.  The
    definitions of this module are the arithmetic expressions of
    [components.js] and of the three.js functions it calls, operation
    for operation, on primitive floats: binary64 with rounding to
    nearest, ties to even, as in JavaScript.  Decimal literals denote
    the nearest binary64 value, as they do in the source. *)
Module Binary64.

Local Open Scope float_scope.

(** [Math.max(a, b)] and [Math.min(a, b)] on two numbers. *)
Definition max (a b : float) : float := if a <? b then b else a.
Definition min (a b : float) : float := if b <? a then b else a.

Record Vector3 : Type := mkVector3 { x : float; y : float; z : float }.

Definition add (a b : Vector3) : Vector3 :=
  mkVector3 (x a + x b) (y a + y b) (z a + z b).
Definition multiplyScalar (a : Vector3) (s : float) : Vector3 :=
  mkVector3 (x a * s) (y a * s) (z a * s).
Definition lerpVectors (v1 v2 : Vector3) (alpha : float) : Vector3 :=
  mkVector3 (x v1 + (x v2 - x v1) * alpha)
            (y v1 + (y v2 - y v1) * alpha)
            (z v1 + (z v2 - z v1) * alpha).

(** [THREE.MathUtils.lerp] *)
Definition lerp (x y t : float) : float := (1 - t) * x + t * y.

(** [Math.min(1, (time - t0) / duration)] with [duration = 600]. *)
Definition progress (t0 time : float) : float :=
  min 1 ((time - t0) / 600).

(** The target [onClick] computes from the vectors read from the camera
    and the original position of the ring. *)
Definition focus_target (camPos camDir originalPos : Vector3) : Vector3 :=
  let target := add camPos (multiplyScalar camDir 1.6) in
  mkVector3 (x target) (max (y target) (y originalPos + 1.2)) (z target).

(** The last frame of an animation: the test [t < 1] fails, so [t] is
    the 1 that [Math.min] returned, [Math.pow(0, 3)] is 0 and both
    easing curves give [e = 1]; the frame sets the position to
    [lerpVectors(startPos, target, 1)]. *)
Definition last_frame (startPos target : Vector3) : Vector3 :=
  lerpVectors startPos target 1.


Definition camPos : Vector3 := mkVector3 0 1.6 4.
Definition camDir : Vector3 := mkVector3 0 0 1.

(** A ring to the left of a camera that stands at x = 0.1. *)
Definition left_ring_pos : Vector3 := mkVector3 (-0.6) 0.5 0.
Definition right_camPos : Vector3 := mkVector3 0.1 1.6 4.

End Binary64.

(** * Properties *)

(** ** Arithmetic of the easing curves and the interpolations *)

Lemma num_lt_irrefl (x : Qc) : num_lt x x = false.
Proof.
  unfold num_lt. by rewrite (proj1 (Qceq_alt x x) eq_refl).
Qed.

Lemma num_lt_true (x y : Qc) : num_lt x y = true ↔ x < y.
Proof.
  unfold num_lt. rewrite Qclt_alt.
  destruct (x ?= y); split; congruence.
Qed.

Lemma num_lt_false (x y : Qc) : num_lt x y = false ↔ y ≤ x.
Proof.
  rewrite Qcle_ngt, <- num_lt_true. destruct (num_lt x y); split; congruence.
Qed.

Lemma completes_progress (t0 time : Qc) :
  completes t0 time → progress t0 time = 1.
Proof.
  unfold completes, progress, Math.min.
  destruct (num_lt ((time - t0) / duration) 1) eqn:E; [congruence | done].
Qed.

Lemma duration_pos : 0 < duration.
Proof. by apply num_lt_true. Qed.

Lemma completes_iff (t0 time : Qc) :
  completes t0 time ↔ t0 + duration ≤ time.
Proof.
  unfold completes, progress, Math.min.
  assert (Hd : duration ≠ 0) by (intros E; discriminate (f_equal this E)).
  assert (Hx : (time - t0) / duration * duration = time - t0).
  { rewrite Qcmult_comm. by apply Qcmult_div_r. }
  destruct (num_lt ((time - t0) / duration) 1) eqn:E.
  - rewrite E. split; [done | intros Hle; exfalso].
    apply num_lt_true in E.
    apply (Qcmult_lt_compat_r _ _ duration duration_pos) in E.
    rewrite Hx, Qcmult_1_l in E.
    apply (Qclt_not_le _ _ E).
    apply (Qcplus_le_mono_r _ _ t0).
    replace (time - t0 + t0) with time by ring.
    by rewrite Qcplus_comm.
  - rewrite num_lt_irrefl. split; [intros _ | done].
    apply num_lt_false in E.
    apply (Qcmult_le_compat_r _ _ duration) in E;
      [| apply Qclt_le_weak, duration_pos].
    rewrite Hx, Qcmult_1_l in E.
    apply (Qcplus_le_mono_r _ _ t0) in E.
    replace (time - t0 + t0) with time in E by ring.
    by rewrite Qcplus_comm.
Qed.

Lemma easeOutCubic_1 : easeOutCubic 1 = 1.
Proof. by apply Qc_is_canon. Qed.

Lemma easeInOutCubic_1 : easeInOutCubic 1 = 1.
Proof. by apply Qc_is_canon. Qed.

Lemma lerpVectors_1 (v1 v2 : Vector3.t) : Vector3.lerpVectors v1 v2 1 = v2.
Proof.
  destruct v1, v2. unfold Vector3.lerpVectors. simpl. f_equal; ring.
Qed.

Lemma lerp_1 (x y : Qc) : MathUtils.lerp x y 1 = y.
Proof. unfold MathUtils.lerp. ring. Qed.

(** ** Clicks and close notifications that are ignored *)

(** C4: a click on a ring while the session is busy, or while the ring is
    focused or animating, returns the scene as it was: no field of the
    manager or of any ring changes, no callback is queued, no event is
    dispatched. *)
Theorem onClick_ignored (s : Scene) (el : nat) (r : Entity) (now : Qc)
    (cam : Camera) :
  entities s !! el = Some r →
  manager.isBusy (ring_manager s) = true
    ∨ isFocused (ring_focus r) = true
    ∨ isAnimating (ring_focus r) = true →
  onClick el now cam s = s ∧ step s (Click el now cam) = s.
Proof.
  intros Hel Hguard. simpl. unfold onClick. rewrite Hel.
  destruct (manager.isBusy (ring_manager s)); [done |].
  destruct Hguard as [? | [-> | ->]]; [done | done |].
  by rewrite orb_true_r.
Qed.

Lemma onClose_busy (s : Scene) (el : nat) (now : Qc) :
  manager.isBusy (ring_manager s) = true → onClose el now s = s.
Proof.
  intros Hb. unfold onClose. rewrite Hb.
  destruct (entities s !! el); [| done].
  by destruct (negb _).
Qed.

Lemma onClose_not_focused (s : Scene) (el : nat) (now : Qc) :
  (∀ r, entities s !! el = Some r → isFocused (ring_focus r) = false) →
  onClose el now s = s.
Proof.
  intros Hf. unfold onClose.
  destruct (entities s !! el) as [r |]; [| done].
  by rewrite (Hf r eq_refl).
Qed.

Lemma onClose_starts (s : Scene) (el : nat) (r : Entity) (now : Qc) :
  entities s !! el = Some r →
  isFocused (ring_focus r) = true →
  manager.isBusy (ring_manager s) = false →
  onClose el now s =
    mkScene (mkRingManager true (focusedEl (ring_manager s)))
            (<[el := set_ring_focus (set_isAnimating true (ring_focus r)) r]>
               (entities s))
            (rafQueue s ++
               [AnimateBack el (position (object3D r))
                  (originalPos (ring_focus r)) (scale (object3D r))
                  (originalScale (ring_focus r)) (rotation (object3D r))
                  (originalRot (ring_focus r)) now])
            (dispatched s).
Proof.
  intros Hel Hf Hb. unfold onClose. by rewrite Hel, Hf, Hb.
Qed.

(** C7: the close notification starts the close animation of a ring only
    when that ring is the focused one (its [isFocused] flag, the test the
    handler makes) and the session is not busy: then the session becomes
    busy, the ring is animating and the return animation to the baseline
    is queued; in every other state the scene is returned unchanged. *)
Theorem onClose_guard (s : Scene) (el : nat) (r : Entity) (now : Qc) :
  entities s !! el = Some r →
  let s' := onClose el now s in
  (isFocused (ring_focus r) = true ∧ manager.isBusy (ring_manager s) = false →
     manager.isBusy (ring_manager s') = true
     ∧ (isAnimating ∘ ring_focus) <$> entities s' !! el = Some true
     ∧ rafQueue s' = rafQueue s ++
         [AnimateBack el (position (object3D r)) (originalPos (ring_focus r))
            (scale (object3D r)) (originalScale (ring_focus r))
            (rotation (object3D r)) (originalRot (ring_focus r)) now])
  ∧ (¬ (isFocused (ring_focus r) = true
        ∧ manager.isBusy (ring_manager s) = false) →
     s' = s)
  ∧ (s' ≠ s →
     isFocused (ring_focus r) = true
     ∧ manager.isBusy (ring_manager s) = false).
Proof.
  intros Hel s'. subst s'.
  assert (Hignored :
    ¬ (isFocused (ring_focus r) = true
       ∧ manager.isBusy (ring_manager s) = false) → onClose el now s = s).
  { intros Hn.
    destruct (manager.isBusy (ring_manager s)) eqn:Hb;
      [by apply onClose_busy |].
    apply onClose_not_focused. intros r' Hr'.
    assert (r' = r) as -> by congruence.
    destruct (isFocused (ring_focus r)); [| done]. by destruct Hn. }
  split; [| split; [done |]].
  - intros [Hf Hb]. rewrite (onClose_starts s el r now Hel Hf Hb). simpl.
    split; [done |]. split; [| done].
    rewrite list_lookup_insert_eq; [done |].
    by apply lookup_lt_is_Some.
  - intros Hne.
    destruct (isFocused (ring_focus r)) eqn:Hf,
             (manager.isBusy (ring_manager s)) eqn:Hb; try done;
      exfalso; apply Hne, Hignored; intros [? ?]; congruence.
Qed.

Lemma onClick_ignored_witness :
  onClick 1%nat (num 10 1) sample_camera sample_focusing = sample_focusing
  ∧ step sample_focusing (Click 1%nat (num 10 1) sample_camera)
    = sample_focusing.
Proof.
  eapply onClick_ignored; [reflexivity | left; reflexivity].
Defined.

Lemma onClose_guard_witness :
  manager.isBusy (ring_manager (onClose 0%nat (num 1000 1) sample_focused))
    = true
  ∧ onClose 1%nat (num 1000 1) sample_focused = sample_focused.
Proof.
  split.
  - eapply (onClose_guard sample_focused 0%nat); [reflexivity |].
    split; reflexivity.
  - eapply (onClose_guard sample_focused 1%nat); [reflexivity |].
    intros [Hf _]. discriminate Hf.
Defined.

(** ** One close notification, many listeners *)

Lemma dispatch_busy (now : Qc) (l : list nat) (s : Scene) :
  manager.isBusy (ring_manager s) = true →
  fold_left (λ s el, onClose el now s) l s = s.
Proof.
  intros Hb. induction l as [| el l IH]; [done |].
  simpl. by rewrite onClose_busy.
Qed.

(** The dispatch over the first [n] rings is the identity when none of
    them is focused, and otherwise it is the [onClose] of the first
    focused one. *)
Lemma dispatch_first (now : Qc) (s : Scene) (n : nat) :
  manager.isBusy (ring_manager s) = false →
  let s' := fold_left (λ s el, onClose el now s) (seq 0 n) s in
  (s' = s
   ∧ ∀ el r, (el < n)%nat → entities s !! el = Some r →
             isFocused (ring_focus r) = false)
  ∨ (∃ el r, (el < n)%nat ∧ entities s !! el = Some r
       ∧ isFocused (ring_focus r) = true
       ∧ (∀ el' r', (el' < el)%nat → entities s !! el' = Some r' →
                    isFocused (ring_focus r') = false)
       ∧ s' = onClose el now s).
Proof.
  intros Hb. induction n as [| n IH]; cbv zeta in *.
  - left. split; [done |]. intros ? ? ?. lia.
  - rewrite seq_S, fold_left_app. simpl.
    destruct IH as [[-> Hnone] | (el & r & Hlt & Hel & Hf & Hfirst & ->)].
    + destruct (entities s !! n) as [r |] eqn:Hn.
      * destruct (isFocused (ring_focus r)) eqn:Hf.
        -- right. exists n, r.
           split; [lia |]. do 2 (split; [done |]). split; [| done].
           intros el' r' Hlt. by apply Hnone.
        -- left. split.
           ++ apply onClose_not_focused. intros r' Hr'. congruence.
           ++ intros el r' Hlt Hel.
              destruct (decide (el = n)) as [-> | Hne]; [congruence |].
              apply (Hnone el); [lia | done].
      * left. split.
        -- apply onClose_not_focused. intros r' Hr'. congruence.
        -- intros el r' Hlt Hel.
           destruct (decide (el = n)) as [-> | Hne]; [congruence |].
           apply (Hnone el); [lia | done].
    + right. exists el, r.
      split; [lia |]. do 3 (split; [done |]).
      apply onClose_busy.
      by rewrite (onClose_starts s el r now Hel Hf Hb).
Qed.

(** C9: when the close notification is dispatched to the close handler of
    every ring while the session is not busy, at most one ring begins the
    close animation: either nothing changes, or the dispatch is exactly
    the [onClose] of the first focused ring, which queues one callback
    and makes the session busy; every other ring is left as it was. *)
Theorem dispatchClose_at_most_one (now : Qc) (s : Scene) :
  manager.isBusy (ring_manager s) = false →
  dispatchClose now s = s
  ∨ ∃ el r,
      entities s !! el = Some r
      ∧ isFocused (ring_focus r) = true
      ∧ (∀ el' r', (el' < el)%nat → entities s !! el' = Some r' →
                   isFocused (ring_focus r') = false)
      ∧ dispatchClose now s = onClose el now s
      ∧ manager.isBusy (ring_manager (dispatchClose now s)) = true
      ∧ rafQueue (dispatchClose now s) = rafQueue s ++
          [AnimateBack el (position (object3D r)) (originalPos (ring_focus r))
             (scale (object3D r)) (originalScale (ring_focus r))
             (rotation (object3D r)) (originalRot (ring_focus r)) now]
      ∧ (∀ el', el' ≠ el →
           entities (dispatchClose now s) !! el' = entities s !! el').
Proof.
  intros Hb. unfold dispatchClose.
  destruct (dispatch_first now s (length (entities s)) Hb)
    as [[-> _] | (el & r & _ & Hel & Hf & Hfirst & ->)]; [by left |].
  right. exists el, r.
  rewrite (onClose_starts s el r now Hel Hf Hb). simpl.
  repeat split; try done.
  intros el' Hne. by apply list_lookup_insert_ne.
Qed.

Lemma dispatchClose_at_most_one_witness :
  dispatchClose (num 1000 1) sample_focused = sample_focused
  ∨ ∃ el r,
      entities sample_focused !! el = Some r
      ∧ isFocused (ring_focus r) = true
      ∧ (∀ el' r', (el' < el)%nat → entities sample_focused !! el' = Some r' →
                   isFocused (ring_focus r') = false)
      ∧ dispatchClose (num 1000 1) sample_focused
        = onClose el (num 1000 1) sample_focused
      ∧ manager.isBusy
          (ring_manager (dispatchClose (num 1000 1) sample_focused)) = true
      ∧ rafQueue (dispatchClose (num 1000 1) sample_focused)
        = rafQueue sample_focused ++
          [AnimateBack el (position (object3D r)) (originalPos (ring_focus r))
             (scale (object3D r)) (originalScale (ring_focus r))
             (rotation (object3D r)) (originalRot (ring_focus r))
             (num 1000 1)]
      ∧ (∀ el', el' ≠ el →
           entities (dispatchClose (num 1000 1) sample_focused) !! el'
           = entities sample_focused !! el').
Proof.
  apply dispatchClose_at_most_one. reflexivity.
Defined.

(** ** What the handlers leave alone *)

(** A view [g] of the entities that an update [f] does not change is the
    same before and after [update_entity]. *)
Lemma fmap_update_entity {A} (g : Entity → A) (el : nat) (f : Entity → Entity)
    (s : Scene) :
  (∀ r, g (f r) = g r) →
  g <$> entities (update_entity el f s) = g <$> entities s.
Proof.
  intros Hg. unfold update_entity.
  destruct (entities s !! el) as [r |] eqn:Hel; [| done]. simpl.
  rewrite list_fmap_insert, Hg. apply list_insert_id.
  by rewrite list_lookup_fmap, Hel.
Qed.

Lemma fmap_map_entities {A} (g : Entity → A) (f : Entity → Entity)
    (s : Scene) :
  (∀ r, g (f r) = g r) →
  g <$> entities (map_entities f s) = g <$> entities s.
Proof.
  intros Hg. simpl. rewrite <- list_fmap_compose.
  apply list_fmap_ext. intros i r _. apply Hg.
Qed.

(** C10: no frame of the focus animation touches a rotation: after any
    call of the [animate] callback every ring has the Euler angles it had
    before, so it has after the [onClick] that starts the animation and
    after every animation frame of the scene in which a focus animation
    is the queued callback; a yaw set by earlier drags is still there
    when the ring is focused. *)
Theorem animate_keeps_rotation (el : nat)
    (startPos target startScale targetScale : Vector3.t) (t0 time now : Qc)
    (cam : Camera) (s : Scene) :
  (rotation ∘ object3D) <$>
    entities (animate el startPos target startScale targetScale t0 time s)
  = (rotation ∘ object3D) <$> entities s
  ∧ (rotation ∘ object3D) <$> entities (onClick el now cam s)
    = (rotation ∘ object3D) <$> entities s
  ∧ (rafQueue s = [Animate el startPos target startScale targetScale t0] →
     (rotation ∘ object3D) <$> entities (step s (AnimationFrame time))
     = (rotation ∘ object3D) <$> entities s).
Proof.
  assert (Hframe : ∀ s',
    (rotation ∘ object3D) <$>
      entities (animate el startPos target startScale targetScale t0 time s')
    = (rotation ∘ object3D) <$> entities s').
  { intros s'. unfold animate.
    destruct (num_lt (progress t0 time) 1); simpl;
      rewrite ?fmap_update_entity; done. }
  split; [apply Hframe | split].
  - unfold onClick.
    destruct (entities s !! el) as [r |] eqn:Hel; [| done].
    destruct (manager.isBusy _); [done |].
    destruct (_ || _); [done |]. simpl.
    rewrite list_fmap_insert. apply list_insert_id.
    by rewrite list_lookup_fmap, Hel.
  - intros Hq. simpl. unfold animationFrame. rewrite Hq. simpl.
    apply (Hframe (mkScene (ring_manager s) (entities s) [] (dispatched s))).
Qed.

Lemma animate_keeps_rotation_witness :
  (rotation ∘ object3D) <$>
    entities (step sample_focusing (AnimationFrame (num 300 1)))
  = (rotation ∘ object3D) <$> entities sample_focusing.
Proof.
  refine (proj2 (proj2 (animate_keeps_rotation 0%nat _ _ _ _ 0 (num 300 1) 0
                          sample_camera sample_focusing)) _).
  reflexivity.
Defined.

(** ** The focus animation *)

Lemma update_entity_Some (el : nat) (f : Entity → Entity) (s : Scene)
    (r : Entity) :
  entities s !! el = Some r → update_entity el f s = set_entity el (f r) s.
Proof. intros Hel. unfold update_entity. by rewrite Hel. Qed.

Lemma lookup_set_entity (el : nat) (r r' : Entity) (s : Scene) :
  entities s !! el = Some r → entities (set_entity el r' s) !! el = Some r'.
Proof.
  intros Hel. simpl. apply list_lookup_insert_eq. by apply lookup_lt_is_Some.
Qed.

Lemma lookup_update_entity (el : nat) (f : Entity → Entity) (s : Scene)
    (r : Entity) :
  entities s !! el = Some r →
  entities (update_entity el f s) !! el = Some (f r).
Proof.
  intros Hel. unfold update_entity. rewrite Hel. simpl.
  apply list_lookup_insert_eq. by apply lookup_lt_is_Some.
Qed.

Lemma lookup_update_entity_ne (el el' : nat) (f : Entity → Entity)
    (s : Scene) :
  el ≠ el' →
  entities (update_entity el f s) !! el' = entities s !! el'.
Proof.
  intros Hne. unfold update_entity.
  destruct (entities s !! el); [| done]. simpl.
  by apply list_lookup_insert_ne.
Qed.

(** The last frame of a focus animation: the ring sits on the target
    with the target scale, is focused and no longer animating, the
    session is free again and the close button is asked for. *)
Lemma animate_completes (el : nat)
    (startPos target startScale targetScale : Vector3.t) (t0 time : Qc)
    (s : Scene) (r : Entity) :
  entities s !! el = Some r →
  completes t0 time →
  animate el startPos target startScale targetScale t0 time s =
    mkScene (mkRingManager false (focusedEl (ring_manager s)))
      (<[el := mkEntity (mkObject3D target targetScale (rotation (object3D r)))
                 (set_flags true false (ring_focus r)) (drag_rotate r)]>
         (entities s))
      (rafQueue s) (show_close_button :: dispatched s).
Proof.
  intros Hel Hc. unfold animate.
  rewrite Hc, (completes_progress _ _ Hc), easeOutCubic_1, !lerpVectors_1.
  rewrite (update_entity_Some el _ s r Hel).
  erewrite update_entity_Some by (by eapply lookup_set_entity).
  unfold dispatchEvent, set_manager, set_entity. simpl.
  by rewrite list_insert_insert_eq.
Qed.

(** In exact arithmetic: the focus animation a click starts is queued
    with the target [focus_target], the camera's world position plus 1.6
    times the vector read from the camera entity, the height replaced by
    the larger of that height and the original height plus 1.2; and the
    completing frame of this animation leaves the ring on that target. *)
Lemma focus_target_reached (s : Scene) (el : nat) (r : Entity) (now : Qc)
    (cam : Camera) :
  entities s !! el = Some r →
  manager.isBusy (ring_manager s) = false →
  active r = false →
  let startPos := position (object3D r) in
  let startScale := scale (object3D r) in
  let targetScale := Vector3.multiplyScalar startScale (num 145 100) in
  rafQueue (onClick el now cam s) =
    rafQueue s ++
      [Animate el startPos (focus_target cam r) startScale targetScale now]
  ∧ ∀ time s' r',
      entities s' !! el = Some r' →
      completes now time →
      (position ∘ object3D) <$>
        entities (animate el startPos (focus_target cam r) startScale
                          targetScale now time s') !! el
      = Some (focus_target cam r).
Proof.
  intros Hel Hb Hact. cbv zeta. split.
  - unfold onClick. rewrite Hel, Hb.
    unfold active in Hact. by rewrite Hact.
  - intros time s' r' Hel' Hc.
    rewrite (animate_completes _ _ _ _ _ _ _ _ _ Hel' Hc). simpl.
    rewrite list_lookup_insert_eq; [done |]. by apply lookup_lt_is_Some.
Qed.

Lemma Vector3_eq (a b : Vector3.t) :
  Vector3.x a = Vector3.x b → Vector3.y a = Vector3.y b →
  Vector3.z a = Vector3.z b → a = b.
Proof. destruct a, b. simpl. by intros -> -> ->. Qed.

(** In the sample scene the camera is at height 1.6 and the vector read
    from it is -z: the target is 1.6 along that vector from the camera,
    lifted to the ring's height plus 1.2. *)
Example sample_focus_target :
  focus_target sample_camera sample_entity = vec 0 (num 17 10) (num 24 10).
Proof. apply Vector3_eq; by apply Qc_is_canon. Qed.

(** Whatever the pose of the camera, the target [onClick] computes lies
    1.6 times the viewing direction {e behind} the camera: on the
    horizontal axes it is the camera's position minus 1.6 times the
    direction the camera looks in. *)
Lemma focus_target_opposite (c : CameraPose) (r : Entity) :
  Vector3.x (focus_target (camera_entity c) r)
  = Vector3.x (eye c) - Vector3.x (looking c) * num 16 10
  ∧ Vector3.z (focus_target (camera_entity c) r)
    = Vector3.z (eye c) - Vector3.z (looking c) * num 16 10.
Proof. unfold focus_target, camera_entity, negate. simpl. split; ring. Qed.

(** C5: the click evaluated for a camera that looks at the box.  The
    camera is at (0, 1.6, 4) and looks along -z at ring 0, which rests
    at (-0.5, 0.5, 0).  The vector [getWorldDirection] returns for the
    camera entity's group is +z, so the animation is queued with the
    target (0, 1.7, 5.6) and the completing frame leaves the ring there,
    1.6 units behind the camera, where the point 1.6 units in front of
    the camera, the target of the claim and of the comments of
    [onClick], is (0, 1.7, 2.4).  The same holds in binary64, where the
    last frame lands on (0, 1.7, 5.6) as well; and in binary64 the last
    frame need not land on the target it was given: for a ring at
    x = -0.6 and a camera at x = 0.1 the target has x = 0.1 and the last
    frame, [lerpVectors(startPos, target, 1)], leaves the ring at
    x = 0.09999999999999998. *)
Theorem focus_target_is_behind_camera :
  rafQueue (onClick 0%nat 0 (camera_entity facing_camera) sample_scene)
  = [Animate 0%nat (vec (num (-1) 2) (num 1 2) 0)
       (vec 0 (num 17 10) (num 56 10))
       (vec 1 1 1) (vec (num 145 100) (num 145 100) (num 145 100)) 0]
  ∧ target_in_front facing_camera sample_entity
    = vec 0 (num 17 10) (num 24 10)
  ∧ (position ∘ object3D) <$>
      entities (run sample_scene
                  [Click 0%nat 0 (camera_entity facing_camera);
                   AnimationFrame (num 600 1)]) !! 0%nat
    = Some (vec 0 (num 17 10) (num 56 10))
  ∧ Binary64.last_frame (Binary64.mkVector3 (-0.5) 0.5 0)
      (Binary64.focus_target Binary64.camPos Binary64.camDir
         (Binary64.mkVector3 (-0.5) 0.5 0))
    = Binary64.mkVector3 0 1.7 5.6
  ∧ Binary64.focus_target Binary64.right_camPos Binary64.camDir
      Binary64.left_ring_pos
    = Binary64.mkVector3 0.1 1.7 5.6
  ∧ Binary64.last_frame Binary64.left_ring_pos
      (Binary64.focus_target Binary64.right_camPos Binary64.camDir
         Binary64.left_ring_pos)
    = Binary64.mkVector3 0.09999999999999998 1.7 5.6.
Proof.
  split; [| split; [| split; [| repeat split]]].
  - simpl. do 2 f_equal; apply Vector3_eq; by apply Qc_is_canon.
  - apply Vector3_eq; by apply Qc_is_canon.
  - simpl. f_equal. apply Vector3_eq; by apply Qc_is_canon.
Qed.

(** ** Dragging *)

(** C3: a pointer-down (session not busy) records the pointer's x and the
    ring's yaw of that moment; every pointer-move of the drag, however
    many there are, sets the yaw to the recorded yaw plus
    (current x - start x) times the sensitivity; a release leaves the yaw
    alone, so gestures add up: with sensitivity 0.012, dragging from 100
    to 150 adds 0.6 and then dragging from 200 to 180 takes 0.24 off the
    yaw the first drag left.  In the scene, a move that follows the press
    and a tick reaches the ring and sets its yaw by the same formula. *)
Theorem drag_yaw (m : RingManager) (r : Entity) :
  manager.isBusy m = false →
  (∀ down,
     let r1 := onPointerDown m down r in
     dragging (drag_rotate r1) = true
     ∧ startX (drag_rotate r1) = pointerX down
     ∧ startYaw (drag_rotate r1) = yaw r
     ∧ yaw r1 = yaw r)
  ∧ (∀ down move r',
       drag_rotate r' = drag_rotate (onPointerDown m down r) →
       yaw (onPointerMove move r')
       = yaw r + (pointerX move - pointerX down) * sensitivity (drag_rotate r)
       ∧ drag_rotate (onPointerMove move r') = drag_rotate r')
  ∧ yaw (onPointerUp r) = yaw r
  ∧ (∀ x0 x1 x2 x3,
       yaw (gesture m x2 x3 (gesture m x0 x1 r))
       = yaw r + (x1 - x0) * sensitivity (drag_rotate r)
               + (x3 - x2) * sensitivity (drag_rotate r))
  ∧ (sensitivity (drag_rotate r) = num 12 1000 →
     let r1 := gesture m (num 100 1) (num 150 1) r in
     let r2 := gesture m (num 200 1) (num 180 1) r1 in
     yaw r1 = yaw r + num 6 10 ∧ yaw r2 = yaw r1 - num 24 100)
  ∧ (∀ s el down move,
       ring_manager s = m →
       entities s !! el = Some r →
       yaw <$> entities
         (run s [PointerDown el down; Tick; PointerMove move]) !! el
       = Some (yaw r + (pointerX move - pointerX down)
                       * sensitivity (drag_rotate r))).
Proof.
  intros Hb.
  assert (Hg : ∀ x0 x1 r,
    yaw (gesture m x0 x1 r) = yaw r + (x1 - x0) * sensitivity (drag_rotate r)
    ∧ sensitivity (drag_rotate (gesture m x0 x1 r))
      = sensitivity (drag_rotate r)).
  { intros x0 x1 r0. unfold gesture, onPointerDown. by rewrite Hb. }
  split; [| split; [| split; [done | split; [| split]]]].
  - intros down. unfold onPointerDown. rewrite Hb. cbv zeta.
    repeat split.
  - intros down move r' Hd. unfold onPointerDown in Hd. rewrite Hb in Hd.
    unfold onPointerMove. rewrite Hd. simpl. done.
  - intros x0 x1 x2 x3.
    destruct (Hg x0 x1 r) as [Hy1 Hs1].
    destruct (Hg x2 x3 (gesture m x0 x1 r)) as [Hy2 _].
    by rewrite Hy2, Hy1, Hs1.
  - intros Hs. cbv zeta.
    destruct (Hg (num 100 1) (num 150 1) r) as [Hy1 Hs1].
    destruct (Hg (num 200 1) (num 180 1)
                 (gesture m (num 100 1) (num 150 1) r)) as [Hy2 _].
    rewrite Hy2, Hs1, Hy1, Hs.
    assert (H1 : (num 150 1 - num 100 1) * num 12 1000 = num 6 10)
      by (by apply Qc_is_canon).
    assert (H2 : (num 180 1 - num 200 1) * num 12 1000 = - num 24 100)
      by (by apply Qc_is_canon).
    by rewrite H1, H2.
  - intros s el down move Hm Hel. simpl.
    rewrite !list_lookup_fmap, (lookup_update_entity el _ s r Hel), Hm.
    unfold onPointerDown. rewrite Hb. unfold tick. simpl.
    by destruct (_attached (drag_rotate r)).
Qed.

Lemma drag_yaw_witness :
  yaw (gesture manager.init (num 200 1) (num 180 1)
         (gesture manager.init (num 100 1) (num 150 1) sample_entity))
  = yaw sample_entity
    + (num 150 1 - num 100 1) * sensitivity (drag_rotate sample_entity)
    + (num 180 1 - num 200 1) * sensitivity (drag_rotate sample_entity).
Proof.
  destruct (drag_yaw manager.init sample_entity eq_refl)
    as (_ & _ & _ & H & _).
  apply H.
Defined.

(** The same two gestures in the scene, with the ticks that attach and
    remove the move listeners in between: ring 0 ends at yaw
    0.6 - 0.24 = 0.36. *)
Example drag_scenario_in_scene :
  yaw <$> entities
    (run sample_scene
       [PointerDown 0%nat (mouse 100); Tick; PointerMove (mouse 150);
        PointerUp; Tick;
        PointerDown 0%nat (mouse 200); Tick; PointerMove (mouse 180);
        PointerUp; Tick]) !! 0%nat
  = Some (num 36 100).
Proof. simpl. f_equal. by apply Qc_is_canon. Qed.

(** ** Frame conditions of the ring-focus handlers

    The handlers of [ring-focus] write the transform and the two flags of
    one ring and nothing else of any ring: every view of the entities
    that does not depend on those is preserved. *)
Section focus_frame.
Context {A : Type} (g : Entity → A).
Hypothesis g_object3D : ∀ o r, g (set_object3D o r) = g r.
Hypothesis g_flags :
  ∀ a b r, g (set_ring_focus (set_flags a b (ring_focus r)) r) = g r.

Lemma view_set_entity (el : nat) (r r' : Entity) (s : Scene) :
  entities s !! el = Some r → g r' = g r →
  g <$> entities (set_entity el r' s) = g <$> entities s.
Proof.
  intros Hel Hg. simpl. rewrite list_fmap_insert, Hg.
  apply list_insert_id. by rewrite list_lookup_fmap, Hel.
Qed.

Lemma view_onClick (el : nat) (now : Qc) (cam : Camera) (s : Scene) :
  g <$> entities (onClick el now cam s) = g <$> entities s.
Proof.
  unfold onClick.
  destruct (entities s !! el) as [r |] eqn:Hel; [| done].
  destruct (manager.isBusy _); [done |].
  destruct (_ || _); [done |].
  apply (view_set_entity el r _ s Hel), g_flags.
Qed.

Lemma view_onClose (el : nat) (now : Qc) (s : Scene) :
  g <$> entities (onClose el now s) = g <$> entities s.
Proof.
  unfold onClose.
  destruct (entities s !! el) as [r |] eqn:Hel; [| done].
  destruct (negb _); [done |].
  destruct (manager.isBusy _); [done |].
  apply (view_set_entity el r _ s Hel), g_flags.
Qed.

Lemma view_run_callback (time : Qc) (cb : FrameCallback) (s : Scene) :
  g <$> entities (run_callback time cb s) = g <$> entities s.
Proof.
  destruct cb; simpl; unfold animate, animateBack;
    destruct (num_lt _ 1); simpl;
    rewrite ?fmap_update_entity; auto.
Qed.

Lemma view_callbacks (time : Qc) (q : list FrameCallback) (s : Scene) :
  g <$> entities (fold_left (λ s cb, run_callback time cb s) q s)
  = g <$> entities s.
Proof.
  revert s. induction q as [| cb q IH]; intros s; [done |].
  simpl. by rewrite IH, view_run_callback.
Qed.

Lemma view_dispatch (now : Qc) (l : list nat) (s : Scene) :
  g <$> entities (fold_left (λ s el, onClose el now s) l s)
  = g <$> entities s.
Proof.
  revert s. induction l as [| el l IH]; intros s; [done |].
  simpl. by rewrite IH, view_onClose.
Qed.

(** Every event but the tick preserves the view, provided the drag
    handlers do; so does the tick, provided [tick] does. *)
Hypothesis g_down : ∀ m evt r, g (onPointerDown m evt r) = g r.
Hypothesis g_move : ∀ evt r, g (onPointerMove evt r) = g r.
Hypothesis g_up : ∀ r, g (onPointerUp r) = g r.

Lemma view_step_no_tick (s : Scene) (ev : Event) :
  ev ≠ Tick → g <$> entities (step s ev) = g <$> entities s.
Proof.
  intros Hev. destruct ev; simpl; [| | | | | | done].
  - apply view_onClick.
  - apply view_dispatch.
  - unfold animationFrame. by rewrite view_callbacks.
  - by apply fmap_update_entity.
  - apply fmap_map_entities. intros r.
    by destruct (_attached (drag_rotate r)).
  - by apply fmap_map_entities.
Qed.

Lemma view_step (s : Scene) (ev : Event) :
  (∀ r, g (tick r) = g r) →
  g <$> entities (step s ev) = g <$> entities s.
Proof.
  intros Htick.
  destruct ev; try (by apply view_step_no_tick).
  by apply fmap_map_entities.
Qed.
End focus_frame.

Lemma onPointerMove_object3D (evt : PointerEvt) (r : Entity) :
  ∃ o, onPointerMove evt r = set_object3D o r.
Proof.
  unfold onPointerMove. destruct (negb _); [| by eexists].
  exists (object3D r). by destruct r.
Qed.

(** ** Move listeners *)

(** C8 (as amended): the move listeners follow the drag state at the
    per-frame tick, not at the pointer events.  After every tick they are
    attached exactly when the ring is being dragged; no other event
    installs or removes them, so they are installed by the first tick
    after a drag starts and removed by the first tick after it ends; a
    move that arrives while the ring is not dragged changes nothing. *)
Theorem tick_syncs_listeners (s : Scene) :
  Forall (λ r, _attached (drag_rotate r) = dragging (drag_rotate r))
         (entities (step s Tick))
  ∧ (∀ ev, ev ≠ Tick →
       (_attached ∘ drag_rotate) <$> entities (step s ev)
       = (_attached ∘ drag_rotate) <$> entities s)
  ∧ (∀ evt r, dragging (drag_rotate r) = false → onPointerMove evt r = r).
Proof.
  split; [| split].
  - simpl. apply Forall_fmap, Forall_true. intros r. unfold tick. simpl.
    destruct (dragging (drag_rotate r)) eqn:Hd,
             (_attached (drag_rotate r)) eqn:Ha; simpl; congruence.
  - intros ev Hev.
    apply view_step_no_tick; try done.
    + intros m evt r. unfold onPointerDown. by destruct (manager.isBusy m).
    + intros evt r. by destruct (onPointerMove_object3D evt r) as [o ->].
  - intros evt r Hd. unfold onPointerMove. by rewrite Hd.
Qed.

Lemma tick_syncs_listeners_witness :
  (_attached ∘ drag_rotate) <$> entities (step sample_focusing PointerUp)
  = (_attached ∘ drag_rotate) <$> entities sample_focusing.
Proof.
  refine (proj1 (proj2 (tick_syncs_listeners sample_focusing)) PointerUp _).
  discriminate.
Defined.

(** C8 as the specification states it does not hold: after a press, a
    tick and a release the listeners of ring 0 are still attached, and
    the ring is no longer dragged. *)
Lemma listeners_outlive_drag :
  ¬ (∀ s, reachable s →
       ∀ el r, entities s !! el = Some r →
               _attached (drag_rotate r) = true →
               dragging (drag_rotate r) = true).
Proof.
  intros H.
  assert (Hr : reachable
    (run sample_scene [PointerDown 0%nat (mouse 100); Tick; PointerUp]))
    by (by exists sample_rings, [PointerDown 0%nat (mouse 100); Tick; PointerUp]).
  specialize (H _ Hr 0%nat _ eq_refl eq_refl). discriminate H.
Qed.

(** ** The invariant of the scene *)

Lemma scene_inv_init (rings : list (Object3D * Qc)) :
  scene_inv (init_scene rings).
Proof.
  split; [by left |].
  intros el r Hel _. simpl in Hel.
  rewrite list_lookup_fmap in Hel.
  destruct (rings !! el) as [[o sens] |]; [| done].
  by injection Hel as <-.
Qed.

(** The invariant only looks at the manager, the queue and the
    [focus_view] of the entities. *)
Lemma scene_inv_view (s s' : Scene) :
  ring_manager s' = ring_manager s →
  rafQueue s' = rafQueue s →
  focus_view <$> entities s' = focus_view <$> entities s →
  scene_inv s → scene_inv s'.
Proof.
  intros Hm Hq Hv [Hqueue Hidle].
  assert (Hlook : ∀ el r', entities s' !! el = Some r' →
            ∃ r, entities s !! el = Some r ∧ focus_view r = focus_view r').
  { intros el r' Hel.
    assert (H : (focus_view <$> entities s) !! el = Some (focus_view r'))
      by (by rewrite <- Hv, list_lookup_fmap, Hel).
    rewrite list_lookup_fmap in H.
    destruct (entities s !! el) as [r |]; [| done].
    exists r. split; [done |]. simpl in H. congruence. }
  assert (Hlook' : ∀ el r, entities s !! el = Some r →
            ∃ r', entities s' !! el = Some r' ∧ focus_view r = focus_view r').
  { intros el r Hel.
    assert (H : (focus_view <$> entities s') !! el = Some (focus_view r))
      by (by rewrite Hv, list_lookup_fmap, Hel).
    rewrite list_lookup_fmap in H.
    destruct (entities s' !! el) as [r' |]; [| done].
    exists r'. split; [done |]. simpl in H. congruence. }
  split.
  - rewrite Hm, Hq.
    destruct Hqueue as [? | [Hb (cb & Hcb & Hinv)]]; [by left |].
    right. split; [done |]. exists cb. split; [done |].
    destruct cb; simpl in *.
    + destruct Hinv as (r & Hel & Ha & Hs & Ht).
      destruct (Hlook' _ _ Hel) as (r' & Hel' & Hfv).
      exists r'. injection Hfv as Hf _ _. by rewrite <- Hf.
    + destruct Hinv as (r & Hel & Ha & Hbase).
      destruct (Hlook' _ _ Hel) as (r' & Hel' & Hfv).
      exists r'. injection Hfv as Hf _ _.
      unfold baseline in *. by rewrite <- Hf.
  - intros el r' Hel' Hact.
    destruct (Hlook _ _ Hel') as (r & Hel & Hfv).
    injection Hfv as Hf Hp Hs. unfold active in *.
    rewrite <- Hf, <- Hp, <- Hs. apply (Hidle el r Hel). by rewrite Hf.
Qed.

(** Starting an animation on ring [el]: the session was free, so the
    queue was empty; the ring becomes animating and the callback [cb] is
    the only one queued. *)
Lemma scene_inv_start (s : Scene) (el : nat) (r : Entity)
    (cb : FrameCallback) (m : RingManager) :
  scene_inv s →
  manager.isBusy (ring_manager s) = false →
  entities s !! el = Some r →
  manager.isBusy m = true →
  let r' := set_ring_focus (set_isAnimating true (ring_focus r)) r in
  (∀ s', entities s' !! el = Some r' → callback_inv s' cb) →
  scene_inv (mkScene m (<[el := r']> (entities s)) (rafQueue s ++ [cb])
                     (dispatched s)).
Proof.
  intros [Hqueue Hidle] Hb Hel Hm r' Hcb.
  assert (Hq : rafQueue s = []).
  { destruct Hqueue as [[_ ?] | [? _]]; [done | congruence]. }
  assert (Hlt : (el < length (entities s))%nat) by (by apply lookup_lt_is_Some).
  split; simpl.
  - right. split; [done |]. rewrite Hq. exists cb. split; [done |].
    apply Hcb. simpl. by apply list_lookup_insert_eq.
  - intros el' r0 Hel' Hact.
    destruct (decide (el = el')) as [<- | Hne].
    + rewrite list_lookup_insert_eq in Hel' by done.
      injection Hel' as <-. unfold active in Hact. simpl in Hact.
      by rewrite orb_true_r in Hact.
    + rewrite list_lookup_insert_ne in Hel' by done. by apply (Hidle el').
Qed.

Lemma scene_inv_onClick (el : nat) (now : Qc) (cam : Camera) (s : Scene) :
  scene_inv s → scene_inv (onClick el now cam s).
Proof.
  intros Hinv. unfold onClick.
  destruct (entities s !! el) as [r |] eqn:Hel; [| done].
  destruct (manager.isBusy (ring_manager s)) eqn:Hb; [done |].
  destruct (isFocused (ring_focus r) || isAnimating (ring_focus r)) eqn:Hact;
    [done |].
  apply (scene_inv_start s el r _ _ Hinv Hb Hel); [done |].
  intros s' Hel'. simpl. eexists. split; [exact Hel' |]. simpl.
  destruct (inv_idle s Hinv el r Hel Hact) as [_ Hs]. by rewrite Hs.
Qed.

Lemma scene_inv_onClose (el : nat) (now : Qc) (s : Scene) :
  scene_inv s → scene_inv (onClose el now s).
Proof.
  intros Hinv. unfold onClose.
  destruct (entities s !! el) as [r |] eqn:Hel; [| done].
  destruct (negb (isFocused (ring_focus r))); [done |].
  destruct (manager.isBusy (ring_manager s)) eqn:Hb; [done |].
  apply (scene_inv_start s el r _ _ Hinv Hb Hel); [done |].
  intros s' Hel'. simpl. eexists. split; [exact Hel' |]. done.
Qed.

Lemma scene_inv_dispatchClose (now : Qc) (s : Scene) :
  scene_inv s → scene_inv (dispatchClose now s).
Proof.
  unfold dispatchClose. generalize (seq 0 (length (entities s))).
  intros l. revert s. induction l as [| el l IH]; intros s Hinv; [done |].
  simpl. by apply IH, scene_inv_onClose.
Qed.

(** The last frame of a close animation: the ring has the transform the
    animation aimed at, both flags are cleared, the session is free and
    has no focused ring, and the close button is asked to hide. *)
Lemma animateBack_completes (el : nat)
    (startPos endPos startScale endScale : Vector3.t)
    (startRot endRot : Euler.t) (t0 time : Qc) (s : Scene) (r : Entity) :
  entities s !! el = Some r →
  completes t0 time →
  animateBack el startPos endPos startScale endScale startRot endRot t0
              time s =
    mkScene (mkRingManager false None)
      (<[el := mkEntity (mkObject3D endPos endScale endRot)
                 (set_flags false false (ring_focus r)) (drag_rotate r)]>
         (entities s))
      (rafQueue s) (hide_close_button :: dispatched s).
Proof.
  intros Hel Hc. unfold animateBack.
  rewrite Hc, (completes_progress _ _ Hc), easeInOutCubic_1, !lerpVectors_1,
    !lerp_1.
  rewrite (update_entity_Some el _ s r Hel).
  erewrite update_entity_Some by (by eapply lookup_set_entity).
  unfold dispatchEvent, set_manager, set_entity. simpl.
  rewrite list_insert_insert_eq. by destruct endRot.
Qed.

(** A frame in the middle of an animation rewrites the transform of the
    animating ring and queues the same callback again. *)
Lemma scene_inv_progress (s : Scene) (cb : FrameCallback) (el : nat)
    (r : Entity) (o : Object3D) :
  scene_inv s →
  rafQueue s = [cb] →
  entities s !! el = Some r →
  isAnimating (ring_focus r) = true →
  (∀ s', entities s' !! el = Some (set_object3D o r) → callback_inv s' cb) →
  scene_inv (mkScene (ring_manager s) (<[el := set_object3D o r]> (entities s))
                     [cb] (dispatched s)).
Proof.
  intros [Hqueue Hidle] Hq Hel Ha Hcb.
  assert (Hlt : (el < length (entities s))%nat) by (by apply lookup_lt_is_Some).
  split; simpl.
  - right. split.
    + destruct Hqueue as [[_ ?] | [? _]]; [congruence | done].
    + exists cb. split; [done |]. apply Hcb. simpl.
      by apply list_lookup_insert_eq.
  - intros el' r0 Hel' Hact.
    destruct (decide (el = el')) as [<- | Hne].
    + rewrite list_lookup_insert_eq in Hel' by done.
      injection Hel' as <-. unfold active in Hact. simpl in Hact.
      by rewrite Ha, orb_true_r in Hact.
    + rewrite list_lookup_insert_ne in Hel' by done. by apply (Hidle el').
Qed.

(** The last frame of an animation empties the queue and frees the
    session; the ring it leaves behind is either active or at its
    baseline. *)
Lemma scene_inv_finish (s : Scene) (el : nat) (r' : Entity)
    (m : RingManager) (d : list WindowEvent) :
  scene_inv s →
  manager.isBusy m = false →
  (active r' = false →
   position (object3D r') = originalPos (ring_focus r')
   ∧ scale (object3D r') = originalScale (ring_focus r')) →
  scene_inv (mkScene m (<[el := r']> (entities s)) [] d).
Proof.
  intros [Hqueue Hidle] Hm Hr'.
  split; simpl; [by left |].
  intros el' r0 Hel' Hact.
  destruct (decide (el = el')) as [<- | Hne].
  - apply list_lookup_insert_Some in Hel' as [(_ & <- & _) | [? _]]; by auto.
  - rewrite list_lookup_insert_ne in Hel' by done. by apply (Hidle el').
Qed.

Lemma empty_queue (s : Scene) :
  rafQueue s = [] →
  mkScene (ring_manager s) (entities s) [] (dispatched s) = s.
Proof. destruct s. simpl. by intros ->. Qed.

Lemma animationFrame_single (time : Qc) (s : Scene) (cb : FrameCallback) :
  rafQueue s = [cb] →
  animationFrame time s =
    run_callback time cb
      (mkScene (ring_manager s) (entities s) [] (dispatched s)).
Proof. intros Hq. unfold animationFrame. by rewrite Hq. Qed.

Lemma scene_inv_animationFrame (time : Qc) (s : Scene) :
  scene_inv s → scene_inv (animationFrame time s).
Proof.
  intros Hinv.
  destruct (inv_queue s Hinv) as [[_ Hq] | [Hb (cb & Hq & Hcb)]].
  - unfold animationFrame. rewrite Hq. simpl. by rewrite empty_queue.
  - rewrite (animationFrame_single time s cb Hq).
    destruct cb as [el sp tg ss ts t0 | el sp ep ss es sr er t0]; simpl in *.
    + destruct Hcb as (r & Hel & Ha & Hss & Hts).
      destruct (num_lt (progress t0 time) 1) eqn:Hc.
      * unfold animate. rewrite Hc.
        erewrite update_entity_Some by exact Hel.
        apply (scene_inv_progress s _ el r _ Hinv Hq Hel Ha).
        intros s' Hel'. simpl. eexists. by split; [exact Hel' |].
      * erewrite animate_completes by done.
        apply (scene_inv_finish s); [done | done |].
        unfold active. simpl. discriminate.
    + destruct Hcb as (r & Hel & Ha & Hbase).
      destruct (num_lt (progress t0 time) 1) eqn:Hc.
      * unfold animateBack. rewrite Hc.
        erewrite update_entity_Some by exact Hel.
        apply (scene_inv_progress s _ el r _ Hinv Hq Hel Ha).
        intros s' Hel'. simpl. eexists. by split; [exact Hel' |].
      * erewrite animateBack_completes by done.
        apply (scene_inv_finish s); [done | done |].
        intros _. simpl. unfold baseline in Hbase. by injection Hbase.
Qed.

Lemma step_manager_queue_drag (s : Scene) (el : nat) (f : Entity → Entity) :
  ring_manager (update_entity el f s) = ring_manager s
  ∧ rafQueue (update_entity el f s) = rafQueue s.
Proof. unfold update_entity. by destruct (entities s !! el). Qed.

Lemma focus_view_drag :
  (∀ m evt r, focus_view (onPointerDown m evt r) = focus_view r)
  ∧ (∀ evt r, focus_view (onPointerMove evt r) = focus_view r)
  ∧ (∀ r, focus_view (onPointerUp r) = focus_view r)
  ∧ (∀ r, focus_view (tick r) = focus_view r).
Proof.
  repeat split.
  - intros m evt r. unfold onPointerDown. by destruct (manager.isBusy m).
  - intros evt r. unfold onPointerMove. by destruct (negb _).
  - intros r. unfold tick.
    by destruct (_ && _); [| destruct (_ && _)].
Qed.

Theorem scene_inv_step (s : Scene) (ev : Event) :
  scene_inv s → scene_inv (step s ev).
Proof.
  intros Hinv.
  destruct focus_view_drag as (Hdown & Hmove & Hup & Htick).
  destruct ev; simpl.
  - by apply scene_inv_onClick.
  - by apply scene_inv_dispatchClose.
  - by apply scene_inv_animationFrame.
  - apply (scene_inv_view s); [apply step_manager_queue_drag ..| | done].
    by apply fmap_update_entity.
  - apply (scene_inv_view s); [done | done | | done].
    apply fmap_map_entities. intros r.
    by destruct (_attached (drag_rotate r)).
  - by apply (scene_inv_view s); [.. | apply fmap_map_entities |].
  - by apply (scene_inv_view s); [.. | apply fmap_map_entities |].
Qed.

Theorem scene_inv_run (evs : list Event) (s : Scene) :
  scene_inv s → scene_inv (run s evs).
Proof.
  revert s. induction evs as [| ev evs IH]; intros s Hinv; [done |].
  simpl. by apply IH, scene_inv_step.
Qed.

(** The baseline a ring stored at [init] is the transform the scene
    description gave it, in every state the scene reaches. *)
Lemma baseline_run (rings : list (Object3D * Qc)) (evs : list Event) :
  baseline <$> entities (run (init_scene rings) evs) = fst <$> rings.
Proof.
  assert (H : ∀ s, baseline <$> entities (run s evs) = baseline <$> entities s).
  { induction evs as [| ev evs IH]; intros s; [done |].
    simpl. rewrite IH. apply view_step; try done.
    - intros m evt r. unfold onPointerDown. by destruct (manager.isBusy m).
    - intros evt r. unfold onPointerMove. by destruct (negb _).
    - intros r. unfold tick.
      by destruct (_ && _); [| destruct (_ && _)]. }
  rewrite H. simpl. rewrite <- list_fmap_compose.
  apply list_fmap_ext. by intros i [[] ?] _.
Qed.

(** ** Completed animations in reachable scenes *)

Lemma queued_callback (s : Scene) (cb : FrameCallback) :
  scene_inv s → cb ∈ rafQueue s → rafQueue s = [cb] ∧ callback_inv s cb.
Proof.
  intros Hinv Hin.
  destruct (inv_queue s Hinv) as [[_ Hq] | [_ (cb' & Hq & Hcb)]];
    rewrite Hq in Hin.
  - by apply elem_of_nil in Hin.
  - by apply list_elem_of_singleton in Hin as ->.
Qed.

Lemma ring_of_entity (rings : list (Object3D * Qc)) (evs : list Event)
    (el : nat) (r : Entity) :
  entities (run (init_scene rings) evs) !! el = Some r →
  ∃ sens, rings !! el = Some (baseline r, sens).
Proof.
  intros Hel.
  assert (H : (fst <$> rings) !! el = Some (baseline r))
    by (by rewrite <- (baseline_run rings evs), list_lookup_fmap, Hel).
  rewrite list_lookup_fmap in H.
  destruct (rings !! el) as [[o sens] |]; [| done].
  exists sens. simpl in H. congruence.
Qed.

(** C6: in every scene reachable from the initial one, the frame that
    completes a focus animation leaves the ring with 1.45 times the scale
    the scene description gave it (its baseline scale): the animation
    started from the baseline scale, because a ring that can be clicked
    is neither focused nor animating and such a ring has its baseline
    scale. *)
Theorem focus_scale_reached (rings : list (Object3D * Qc))
    (evs : list Event) (el : nat)
    (startPos target startScale targetScale : Vector3.t) (t0 time : Qc) :
  let s := run (init_scene rings) evs in
  Animate el startPos target startScale targetScale t0 ∈ rafQueue s →
  completes t0 time →
  ∃ o sens r',
    rings !! el = Some (o, sens)
    ∧ startScale = scale o
    ∧ entities (step s (AnimationFrame time)) !! el = Some r'
    ∧ scale (object3D r') = Vector3.multiplyScalar (scale o) (num 145 100)
    ∧ originalScale (ring_focus r') = scale o
    ∧ isFocused (ring_focus r') = true
    ∧ isAnimating (ring_focus r') = false.
Proof.
  intros s Hin Hc.
  assert (Hinv : scene_inv s) by apply scene_inv_run, scene_inv_init.
  destruct (queued_callback s _ Hinv Hin) as [Hq (r & Hel & _ & Hss & Hts)].
  destruct (ring_of_entity rings evs el r Hel) as [sens Hring].
  exists (baseline r), sens. eexists.
  split; [done |]. split; [done |]. simpl.
  rewrite (animationFrame_single time s _ Hq). simpl.
  erewrite animate_completes by done. simpl.
  split; [apply list_lookup_insert_eq; by apply lookup_lt_is_Some |].
  by rewrite Hts.
Qed.

(** In exact arithmetic: in every scene reachable from the initial one,
    the frame that completes a close animation (one is only ever started
    on a focused ring, that is after a completed focus animation) leaves
    the ring with the transform the scene description gave it: position,
    scale and all three Euler angles are the baseline captured at
    [init], and the ring is neither focused nor animating. *)
Lemma close_restores_baseline (rings : list (Object3D * Qc))
    (evs : list Event) (el : nat)
    (startPos endPos startScale endScale : Vector3.t)
    (startRot endRot : Euler.t) (t0 time : Qc) :
  let s := run (init_scene rings) evs in
  AnimateBack el startPos endPos startScale endScale startRot endRot t0
    ∈ rafQueue s →
  completes t0 time →
  ∃ o sens r',
    rings !! el = Some (o, sens)
    ∧ entities (step s (AnimationFrame time)) !! el = Some r'
    ∧ object3D r' = o
    ∧ baseline r' = o
    ∧ isFocused (ring_focus r') = false
    ∧ isAnimating (ring_focus r') = false.
Proof.
  intros s Hin Hc.
  assert (Hinv : scene_inv s) by apply scene_inv_run, scene_inv_init.
  destruct (queued_callback s _ Hinv Hin) as [Hq (r & Hel & _ & Hbase)].
  destruct (ring_of_entity rings evs el r Hel) as [sens Hring].
  exists (baseline r), sens. eexists.
  split; [done |]. simpl.
  rewrite (animationFrame_single time s _ Hq). simpl.
  erewrite animateBack_completes by done. simpl.
  split; [apply list_lookup_insert_eq; by apply lookup_lt_is_Some |].
  by rewrite Hbase.
Qed.

Lemma focus_scale_reached_witness :
  ∃ o sens r',
    sample_rings !! 0%nat = Some (o, sens)
    ∧ vec 1 1 1 = scale o
    ∧ entities (step (run (init_scene sample_rings)
                          [Click 0%nat 0 sample_camera])
                     (AnimationFrame (num 600 1))) !! 0%nat = Some r'
    ∧ scale (object3D r') = Vector3.multiplyScalar (scale o) (num 145 100)
    ∧ originalScale (ring_focus r') = scale o
    ∧ isFocused (ring_focus r') = true
    ∧ isAnimating (ring_focus r') = false.
Proof.
  eapply (focus_scale_reached sample_rings [Click 0%nat 0 sample_camera]
            0%nat _ _ _ _ 0 (num 600 1)); [| reflexivity].
  apply list_elem_of_here.
Defined.

Lemma Euler_eq (a b : Euler.t) :
  Euler.x a = Euler.x b → Euler.y a = Euler.y b → Euler.z a = Euler.z b →
  a = b.
Proof. destruct a, b. simpl. by intros -> -> ->. Qed.

Lemma Object3D_eq (a b : Object3D) :
  position a = position b → scale a = scale b → rotation a = rotation b →
  a = b.
Proof. destruct a, b. simpl. by intros -> -> ->. Qed.

(** A whole cycle in the sample scene: ring 0 is focused, turned by a
    drag while it is focused (its yaw is then 0.6), and closed; three
    frames into the close animation it is back in its slot with its
    original scale and angles. *)
Example focus_drag_close_cycle :
  yaw <$> entities
    (run sample_focused
       [PointerDown 0%nat (mouse 100); Tick; PointerMove (mouse 150);
        PointerUp; Tick]) !! 0%nat
  = Some (num 6 10)
  ∧ object3D <$> entities
      (run sample_focused
         [PointerDown 0%nat (mouse 100); Tick; PointerMove (mouse 150);
          PointerUp; Tick;
          CloseFocusedRing (num 1000 1);
          AnimationFrame (num 1200 1); AnimationFrame (num 1400 1);
          AnimationFrame (num 1600 1)]) !! 0%nat
    = Some (sample_ring (num (-1) 2)).1.
Proof.
  split; simpl.
  - f_equal. by apply Qc_is_canon.
  - f_equal.
    apply Object3D_eq; [apply Vector3_eq .. | apply Euler_eq];
      by apply Qc_is_canon.
Qed.

(** In binary64 too a frame 600 ms after the start is a last frame: the
    quotient is 1, [Math.min] returns 1 and the test [t < 1] fails. *)
Example frame_after_600_is_last_in_binary64 :
  Binary64.progress 0 600 = 1%float
  ∧ (Binary64.progress 0 600 <? 1)%float = false
  ∧ Binary64.progress 1000 1600 = 1%float.
Proof. by repeat split. Qed.


(** ** One active ring at a time *)

(** The session admits one animation at a time: in every reachable scene
    at most one callback is queued, and none when the session is not
    busy. *)
Lemma one_animation_at_a_time (s : Scene) :
  reachable s →
  (length (rafQueue s) ≤ 1)%nat
  ∧ (manager.isBusy (ring_manager s) = false → rafQueue s = []).
Proof.
  intros (rings & evs & ->).
  destruct (inv_queue _ (scene_inv_run evs _ (scene_inv_init rings)))
    as [[_ ->] | [Hb (cb & -> & _)]]; simpl; split; auto; congruence.
Qed.

(** C1 does not hold of the code: the focus animation of ring 0 ends
    with [setBusy(false)], so a click on ring 1 passes both guards of
    [onClick] while ring 0 is focused.  After that click ring 0 is
    focused and ring 1 is animating, and one frame later both rings are
    focused. *)
Theorem second_ring_focuses_while_first_is_focused :
  let s := run sample_scene
             [Click 0%nat 0 sample_camera;
              AnimationFrame (num 300 1); AnimationFrame (num 600 1);
              Click 1%nat (num 700 1) sample_camera] in
  reachable s
  ∧ (isFocused ∘ ring_focus) <$> entities s !! 0%nat = Some true
  ∧ (isAnimating ∘ ring_focus) <$> entities s !! 1%nat = Some true
  ∧ manager.getFocused (ring_manager s) = Some 1%nat
  ∧ (isFocused ∘ ring_focus) <$>
      entities (step s (AnimationFrame (num 1300 1)))
    = [true; true; false]
  ∧ ¬ (∀ s, reachable s →
         ∀ el1 el2 r1 r2,
           entities s !! el1 = Some r1 → entities s !! el2 = Some r2 →
           active r1 = true → active r2 = true → el1 = el2).
Proof.
  intros s.
  assert (Hr : reachable s) by (by eexists _, _).
  do 5 (split; [done |]).
  intros H.
  by specialize (H s Hr 0%nat 1%nat _ _ eq_refl eq_refl eq_refl eq_refl).
Qed.

(** * Further properties of the components *)

(** ** Explicit forms of the accepted click and of the frames in between *)

Lemma onClick_starts (s : Scene) (el : nat) (r : Entity) (now : Qc)
    (cam : Camera) :
  entities s !! el = Some r →
  manager.isBusy (ring_manager s) = false →
  active r = false →
  onClick el now cam s =
    mkScene (mkRingManager true (Some el))
            (<[el := set_ring_focus (set_isAnimating true (ring_focus r)) r]>
               (entities s))
            (rafQueue s ++
               [Animate el (position (object3D r)) (focus_target cam r)
                  (scale (object3D r))
                  (Vector3.multiplyScalar (scale (object3D r)) (num 145 100))
                  now])
            (dispatched s).
Proof.
  intros Hel Hb Hact. unfold onClick. rewrite Hel, Hb.
  unfold active in Hact. by rewrite Hact.
Qed.

Lemma animate_continues (el : nat)
    (startPos target startScale targetScale : Vector3.t) (t0 time : Qc)
    (s : Scene) (r : Entity) :
  entities s !! el = Some r →
  num_lt (progress t0 time) 1 = true →
  ∃ o, animate el startPos target startScale targetScale t0 time s =
    mkScene (ring_manager s) (<[el := set_object3D o r]> (entities s))
      (rafQueue s ++ [Animate el startPos target startScale targetScale t0])
      (dispatched s).
Proof.
  intros Hel Hc. unfold animate. rewrite Hc.
  rewrite (update_entity_Some el _ s r Hel). by eexists.
Qed.

Lemma animateBack_continues (el : nat)
    (startPos endPos startScale endScale : Vector3.t)
    (startRot endRot : Euler.t) (t0 time : Qc) (s : Scene) (r : Entity) :
  entities s !! el = Some r →
  num_lt (progress t0 time) 1 = true →
  ∃ o, animateBack el startPos endPos startScale endScale startRot endRot t0
                   time s =
    mkScene (ring_manager s) (<[el := set_object3D o r]> (entities s))
      (rafQueue s ++
         [AnimateBack el startPos endPos startScale endScale startRot endRot
                      t0])
      (dispatched s).
Proof.
  intros Hel Hc. unfold animateBack. rewrite Hc.
  rewrite (update_entity_Some el _ s r Hel). by eexists.
Qed.

(** ** The flags, the queue, the manager and the dispatched events *)

Lemma sum_list_insert (l : list nat) (i x y : nat) :
  l !! i = Some y →
  (sum_list (<[i := x]> l) + y = sum_list l + x)%nat.
Proof.
  revert i. induction l as [| a l IH]; intros [| i] Hi; simpl in *;
    try done.
  - injection Hi as ->. lia.
  - specialize (IH i Hi). lia.
Qed.

Lemma focused_count_insert (s : Scene) (el : nat) (r r' : Entity) :
  entities s !! el = Some r →
  (sum_list (focused_flag <$> <[el := r']> (entities s)) + focused_flag r
   = focused_count s + focused_flag r')%nat.
Proof.
  intros Hel. rewrite list_fmap_insert. apply sum_list_insert.
  by rewrite list_lookup_fmap, Hel.
Qed.

Lemma flags_inv_init (rings : list (Object3D * Qc)) :
  flags_inv (init_scene rings).
Proof.
  split.
  - intros el r Hel Ha. simpl in Hel. rewrite list_lookup_fmap in Hel.
    destruct (rings !! el) as [[o sens] |]; [| done].
    injection Hel as <-. done.
  - done.
  - unfold shown, hidden, focused_count. simpl.
    induction rings as [| [o sens] rings IH]; done.
Qed.

(** The invariant looks at the entities through their [ring_focus]
    fields only. *)
Lemma flags_inv_view (s s' : Scene) :
  ring_manager s' = ring_manager s →
  rafQueue s' = rafQueue s →
  dispatched s' = dispatched s →
  ring_focus <$> entities s' = ring_focus <$> entities s →
  flags_inv s → flags_inv s'.
Proof.
  intros Hm Hq Hd Hv [Hanim Hfoc Hcount].
  assert (Hlook : ∀ el r', entities s' !! el = Some r' →
            ∃ r, entities s !! el = Some r ∧ ring_focus r = ring_focus r').
  { intros el r' Hel.
    assert (H : (ring_focus <$> entities s) !! el = Some (ring_focus r'))
      by (by rewrite <- Hv, list_lookup_fmap, Hel).
    rewrite list_lookup_fmap in H.
    destruct (entities s !! el) as [r |]; [| done].
    exists r. split; [done |]. simpl in H. congruence. }
  assert (Hlook' : ∀ el r, entities s !! el = Some r →
            ∃ r', entities s' !! el = Some r' ∧ ring_focus r = ring_focus r').
  { intros el r Hel.
    assert (H : (ring_focus <$> entities s') !! el = Some (ring_focus r))
      by (by rewrite Hv, list_lookup_fmap, Hel).
    rewrite list_lookup_fmap in H.
    destruct (entities s' !! el) as [r' |]; [| done].
    exists r'. split; [done |]. simpl in H. congruence. }
  split.
  - intros el r' Hel' Ha. rewrite Hq.
    destruct (Hlook _ _ Hel') as (r & Hel & Hf).
    rewrite <- Hf in *. by apply (Hanim el r).
  - intros el Hel. rewrite Hm in Hel.
    destruct (Hfoc el Hel) as (r & Hr & Hact).
    destruct (Hlook' _ _ Hr) as (r' & Hr' & Hf).
    exists r'. split; [done |]. unfold active in *. by rewrite <- Hf.
  - unfold shown, hidden, focused_count in *. rewrite Hd, Hcount.
    f_equal. f_equal.
    change (focused_flag <$> entities s') with
      ((λ f, if isFocused f then 1%nat else 0%nat) ∘ ring_focus
         <$> entities s').
    change (focused_flag <$> entities s) with
      ((λ f, if isFocused f then 1%nat else 0%nat) ∘ ring_focus
         <$> entities s).
    by rewrite !list_fmap_compose, Hv.
Qed.

Lemma free_queue_empty (s : Scene) :
  scene_inv s → manager.isBusy (ring_manager s) = false → rafQueue s = [].
Proof.
  intros Hinv Hb.
  destruct (inv_queue s Hinv) as [[_ ?] | [? _]]; [done | congruence].
Qed.

(** An accepted click or close: the session was free, so no ring was
    animating; ring [el] becomes animating and [cb] is queued for it. *)
Lemma flags_inv_start (s : Scene) (el : nat) (r : Entity)
    (cb : FrameCallback) (m : RingManager) :
  scene_inv s → flags_inv s →
  manager.isBusy (ring_manager s) = false →
  entities s !! el = Some r →
  callback_el cb = el →
  closing cb = isFocused (ring_focus r) →
  (manager.getFocused m = manager.getFocused (ring_manager s)
   ∨ manager.getFocused m = Some el) →
  flags_inv
    (mkScene m
       (<[el := set_ring_focus (set_isAnimating true (ring_focus r)) r]>
          (entities s))
       (rafQueue s ++ [cb]) (dispatched s)).
Proof.
  intros Hinv [Hanim Hfoc Hcount] Hb Hel Hcb Hcl Hm.
  assert (Hq : rafQueue s = []) by (by apply free_queue_empty).
  assert (Hlt : (el < length (entities s))%nat) by (by apply lookup_lt_is_Some).
  assert (Hnew : entities
    (mkScene m
       (<[el := set_ring_focus (set_isAnimating true (ring_focus r)) r]>
          (entities s))
       (rafQueue s ++ [cb]) (dispatched s)) !! el
    = Some (set_ring_focus (set_isAnimating true (ring_focus r)) r))
    by (by apply list_lookup_insert_eq).
  split.
  - intros el' r0 Hel' Ha. simpl in *. rewrite Hq. simpl.
    destruct (decide (el = el')) as [<- | Hne].
    + exists cb. rewrite Hnew in Hel'. injection Hel' as <-. by simpl.
    + rewrite list_lookup_insert_ne in Hel' by done.
      destruct (Hanim el' r0 Hel' Ha) as (cb' & Hq' & _). congruence.
  - intros el' Hel'. simpl in Hel'.
    destruct (decide (el = el')) as [<- | Hne].
    + eexists. split; [exact Hnew |]. unfold active. simpl.
      apply orb_true_r.
    + destruct Hm as [Hm | Hm]; [| congruence].
      rewrite Hm in Hel'. destruct (Hfoc el' Hel') as (r' & Hr' & Hact).
      exists r'. split; [| done]. simpl.
      by rewrite list_lookup_insert_ne.
  - unfold shown, hidden, focused_count in *. simpl. rewrite Hcount.
    f_equal.
    pose proof (focused_count_insert s el r
      (set_ring_focus (set_isAnimating true (ring_focus r)) r) Hel) as H.
    unfold focused_count, focused_flag in *. simpl in H. lia.
Qed.

(** The last frame of an animation for ring [el], which was animating:
    the queue becomes empty; [r'] is what the frame leaves of the ring
    and [e] the event it dispatches. *)
Lemma flags_inv_finish (s : Scene) (cb : FrameCallback) (r : Entity)
    (focused : bool) (o : Object3D) (m : RingManager) (e : WindowEvent) :
  flags_inv s →
  rafQueue s = [cb] →
  entities s !! callback_el cb = Some r →
  isAnimating (ring_focus r) = true →
  focused = negb (closing cb) →
  is_show e = focused →
  (manager.getFocused m = manager.getFocused (ring_manager s)
   ∨ manager.getFocused m = None) →
  (focused = false → manager.getFocused m = None) →
  flags_inv
    (mkScene m
       (<[callback_el cb :=
            mkEntity o (set_flags focused false (ring_focus r))
                     (drag_rotate r)]> (entities s))
       [] (e :: dispatched s)).
Proof.
  intros [Hanim Hfoc Hcount] Hq Hel Ha Hfocused He Hm Hm'.
  assert (Hlt : (callback_el cb < length (entities s))%nat)
    by (by apply lookup_lt_is_Some).
  destruct (Hanim _ r Hel Ha) as (cb' & Hq' & _ & Hfr).
  assert (cb' = cb) as -> by congruence.
  split.
  - intros el' r0 Hel' Ha'. simpl in *.
    destruct (decide (callback_el cb = el')) as [<- | Hne].
    + rewrite list_lookup_insert_eq in Hel' by done.
      by injection Hel' as <-.
    + rewrite list_lookup_insert_ne in Hel' by done.
      destruct (Hanim el' r0 Hel' Ha') as (cb' & Hq'' & Hcb' & _).
      congruence.
  - intros el' Hel'. simpl in Hel'.
    destruct focused.
    + destruct Hm as [Hm | Hm]; [| congruence].
      rewrite Hm in Hel'. destruct (Hfoc el' Hel') as (r' & Hr' & Hact).
      simpl. destruct (decide (callback_el cb = el')) as [<- | Hne].
      * eexists. split; [by apply list_lookup_insert_eq | done].
      * exists r'. split; [| done]. by rewrite list_lookup_insert_ne.
    + rewrite Hm' in Hel'; done.
  - pose proof (focused_count_insert s (callback_el cb) r
      (mkEntity o (set_flags focused false (ring_focus r)) (drag_rotate r))
      Hel) as H.
    unfold shown, hidden, focused_count, focused_flag in *. simpl in *.
    rewrite !filter_cons. rewrite He, Hfr in *.
    destruct (closing cb); subst focused; simpl in *;
      repeat case_decide; try done; simpl; lia.
Qed.

Lemma flags_inv_onClick (el : nat) (now : Qc) (cam : Camera) (s : Scene) :
  scene_inv s → flags_inv s → flags_inv (onClick el now cam s).
Proof.
  intros Hinv Hfl.
  destruct (entities s !! el) as [r |] eqn:Hel;
    [| unfold onClick; by rewrite Hel].
  destruct (manager.isBusy (ring_manager s)) eqn:Hb;
    [unfold onClick; by rewrite Hel, Hb |].
  destruct (active r) eqn:Hact.
  { unfold onClick. rewrite Hel, Hb. unfold active in Hact. by rewrite Hact. }
  rewrite (onClick_starts s el r now cam Hel Hb Hact).
  apply flags_inv_start; try done; [| by right].
  unfold active in Hact. by apply orb_false_elim in Hact as [-> _].
Qed.

Lemma flags_inv_onClose (el : nat) (now : Qc) (s : Scene) :
  scene_inv s → flags_inv s → flags_inv (onClose el now s).
Proof.
  intros Hinv Hfl.
  destruct (entities s !! el) as [r |] eqn:Hel;
    [| unfold onClose; by rewrite Hel].
  destruct (manager.isBusy (ring_manager s)) eqn:Hb;
    [by rewrite onClose_busy |].
  destruct (isFocused (ring_focus r)) eqn:Hf.
  - rewrite (onClose_starts s el r now Hel Hf Hb).
    apply flags_inv_start; try done. by left.
  - rewrite onClose_not_focused; [done |]. intros r' Hr'. congruence.
Qed.

Lemma flags_inv_dispatchClose (now : Qc) (s : Scene) :
  scene_inv s → flags_inv s → flags_inv (dispatchClose now s).
Proof.
  unfold dispatchClose. generalize (seq 0 (length (entities s))).
  intros l. revert s. induction l as [| el l IH]; intros s Hinv Hfl; [done |].
  simpl. apply IH; [by apply scene_inv_onClose | by apply flags_inv_onClose].
Qed.

Lemma flags_inv_animationFrame (time : Qc) (s : Scene) :
  scene_inv s → flags_inv s → flags_inv (animationFrame time s).
Proof.
  intros Hinv Hfl.
  destruct (inv_queue s Hinv) as [[_ Hq] | [Hb (cb & Hq & Hcb)]].
  - unfold animationFrame. rewrite Hq. simpl. by rewrite empty_queue.
  - rewrite (animationFrame_single time s cb Hq).
    destruct cb as [el sp tg ss ts t0 | el sp ep ss es sr er t0]; simpl in *.
    + destruct Hcb as (r & Hel & Ha & _).
      destruct (num_lt (progress t0 time) 1) eqn:Hc.
      * edestruct (animate_continues el sp tg ss ts t0 time
          (mkScene (ring_manager s) (entities s) [] (dispatched s)) r)
          as [o ->]; [done .. |].
        apply (flags_inv_view s); try done. simpl.
        rewrite list_fmap_insert. simpl. apply list_insert_id.
        by rewrite list_lookup_fmap, Hel.
      * erewrite animate_completes by done.
        by apply (flags_inv_finish s (Animate el sp tg ss ts t0) r true);
          try done; left.
    + destruct Hcb as (r & Hel & Ha & _).
      destruct (num_lt (progress t0 time) 1) eqn:Hc.
      * edestruct (animateBack_continues el sp ep ss es sr er t0 time
          (mkScene (ring_manager s) (entities s) [] (dispatched s)) r)
          as [o ->]; [done .. |].
        apply (flags_inv_view s); try done. simpl.
        rewrite list_fmap_insert. simpl. apply list_insert_id.
        by rewrite list_lookup_fmap, Hel.
      * erewrite animateBack_completes by done.
        by apply (flags_inv_finish s
                    (AnimateBack el sp ep ss es sr er t0) r false);
          try done; right.
Qed.

Lemma ring_focus_drag :
  (∀ m evt r, ring_focus (onPointerDown m evt r) = ring_focus r)
  ∧ (∀ evt r, ring_focus (onPointerMove evt r) = ring_focus r)
  ∧ (∀ r, ring_focus (onPointerUp r) = ring_focus r)
  ∧ (∀ r, ring_focus (tick r) = ring_focus r).
Proof.
  repeat split.
  - intros m evt r. unfold onPointerDown. by destruct (manager.isBusy m).
  - intros evt r. unfold onPointerMove. by destruct (negb _).
  - intros r. unfold tick.
    by destruct (_ && _); [| destruct (_ && _)].
Qed.

Lemma update_entity_rest (s : Scene) (el : nat) (f : Entity → Entity) :
  ring_manager (update_entity el f s) = ring_manager s
  ∧ rafQueue (update_entity el f s) = rafQueue s
  ∧ dispatched (update_entity el f s) = dispatched s.
Proof. unfold update_entity. by destruct (entities s !! el). Qed.

Lemma flags_inv_step (s : Scene) (ev : Event) :
  scene_inv s → flags_inv s → flags_inv (step s ev).
Proof.
  intros Hinv Hfl.
  destruct ring_focus_drag as (Hdown & Hmove & Hup & Htick).
  destruct ev; simpl.
  - by apply flags_inv_onClick.
  - by apply flags_inv_dispatchClose.
  - by apply flags_inv_animationFrame.
  - apply (flags_inv_view s); [apply update_entity_rest .. | | done].
    by apply fmap_update_entity.
  - apply (flags_inv_view s); [done .. | | done].
    apply fmap_map_entities. intros r.
    by destruct (_attached (drag_rotate r)).
  - by apply (flags_inv_view s); [.. | apply fmap_map_entities |].
  - by apply (flags_inv_view s); [.. | apply fmap_map_entities |].
Qed.

Lemma invariants_run (rings : list (Object3D * Qc)) (evs : list Event) :
  scene_inv (run (init_scene rings) evs)
  ∧ flags_inv (run (init_scene rings) evs).
Proof.
  assert (H : ∀ s, scene_inv s ∧ flags_inv s →
                   scene_inv (run s evs) ∧ flags_inv (run s evs)).
  { induction evs as [| ev evs IH]; intros s [Hinv Hfl]; [done |].
    simpl. apply IH. split;
      [by apply scene_inv_step | by apply flags_inv_step]. }
  apply H. split; [apply scene_inv_init | apply flags_inv_init].
Qed.

(** ** What holds of the flags in every reachable scene *)

(** X1: One animation at a time: in every scene reachable from the initial
    one at most one callback is queued, and the session is busy exactly when
    one is. *)
Theorem busy_iff_animation_queued (rings : list (Object3D * Qc))
    (evs : list Event) :
  let s := run (init_scene rings) evs in
  (length (rafQueue s) ≤ 1)%nat
  ∧ (manager.isBusy (ring_manager s) = true ↔ rafQueue s ≠ []).
Proof.
  intros s. destruct (invariants_run rings evs) as [Hinv _].
  destruct (inv_queue _ Hinv) as [[Hb Hq] | [Hb (cb & Hq & _)]];
    fold s in Hb, Hq; rewrite Hb, Hq; simpl.
  - split; [lia |]. split; [discriminate | done].
  - split; [lia |]. split; [discriminate | done].
Qed.

(** X2: At most one ring is animating: a ring whose [isAnimating] flag is
    set is the ring of the one queued callback, and the ring of a queued
    callback has the flag set; during a focus animation the ring is not yet
    focused, during a close animation it still is. *)
Theorem animating_ring_is_the_queued_one (rings : list (Object3D * Qc))
    (evs : list Event) :
  let s := run (init_scene rings) evs in
  (∀ el r, entities s !! el = Some r →
     isAnimating (ring_focus r) = true →
     ∃ cb, rafQueue s = [cb] ∧ callback_el cb = el
           ∧ isFocused (ring_focus r) = closing cb)
  ∧ (∀ cb, cb ∈ rafQueue s →
       ∃ r, entities s !! callback_el cb = Some r
            ∧ isAnimating (ring_focus r) = true)
  ∧ (∀ el1 el2 r1 r2,
       entities s !! el1 = Some r1 → entities s !! el2 = Some r2 →
       isAnimating (ring_focus r1) = true →
       isAnimating (ring_focus r2) = true → el1 = el2).
Proof.
  intros s. destruct (invariants_run rings evs) as [Hinv Hfl].
  fold s in Hinv, Hfl. split; [apply (fi_animating s Hfl) | split].
  - intros cb Hin.
    destruct (queued_callback s cb Hinv Hin) as [_ Hcb].
    destruct cb; simpl in *.
    + destruct Hcb as (r & ? & ? & _). by exists r.
    + destruct Hcb as (r & ? & ? & _). by exists r.
  - intros el1 el2 r1 r2 H1 H2 Ha1 Ha2.
    destruct (fi_animating s Hfl el1 r1 H1 Ha1) as (cb1 & Hq1 & <- & _).
    destruct (fi_animating s Hfl el2 r2 H2 Ha2) as (cb2 & Hq2 & <- & _).
    congruence.
Qed.

Lemma animating_ring_is_the_queued_one_witness :
  ∃ cb, rafQueue sample_focusing = [cb] ∧ callback_el cb = 0%nat.
Proof.
  destruct (animating_ring_is_the_queued_one sample_rings
              [Click 0%nat 0 sample_camera]) as [H _].
  destruct (H 0%nat _ eq_refl eq_refl) as (cb & Hq & Hel & _).
  by exists cb.
Defined.

(** X3: [getFocused] never names an idle ring: whenever the manager holds a
    focused element, that element is a ring of the scene and it is focused
    or animating. *)
Theorem getFocused_is_active (rings : list (Object3D * Qc))
    (evs : list Event) (el : nat) :
  let s := run (init_scene rings) evs in
  manager.getFocused (ring_manager s) = Some el →
  ∃ r, entities s !! el = Some r ∧ active r = true.
Proof.
  intros s. destruct (invariants_run rings evs) as [_ Hfl].
  apply (fi_focusedEl _ Hfl).
Qed.

Lemma getFocused_is_active_witness :
  ∃ r, entities sample_focused !! 0%nat = Some r ∧ active r = true.
Proof.
  apply (getFocused_is_active sample_rings
           [Click 0%nat 0 sample_camera; AnimationFrame (num 300 1);
            AnimationFrame (num 600 1)] 0%nat).
  reflexivity.
Defined.

(** X4: The close button follows the focused rings: in every reachable scene
    the number of [show-close-button] events dispatched so far is the number
    of [hide-close-button] events plus the number of rings whose [isFocused]
    flag is set. *)
Theorem close_button_events_count_focused_rings
    (rings : list (Object3D * Qc)) (evs : list Event) :
  let s := run (init_scene rings) evs in
  shown s = (hidden s + focused_count s)%nat.
Proof.
  intros s. destruct (invariants_run rings evs) as [_ Hfl].
  apply (fi_count _ Hfl).
Qed.

(** ** What the events never touch *)

Lemma non_drag_view_drag :
  (∀ m evt r, non_drag_view (onPointerDown m evt r) = non_drag_view r)
  ∧ (∀ evt r, non_drag_view (onPointerMove evt r) = non_drag_view r)
  ∧ (∀ r, non_drag_view (onPointerUp r) = non_drag_view r)
  ∧ (∀ r, non_drag_view (tick r) = non_drag_view r).
Proof.
  repeat split.
  - intros m evt r. unfold onPointerDown. by destruct (manager.isBusy m).
  - intros evt r. unfold onPointerMove. by destruct (negb _).
  - intros r. unfold tick.
    by destruct (_ && _); [| destruct (_ && _)].
Qed.

(** X5: Pointer events and ticks only turn rings about the vertical axis:
    they leave the manager, the callback queue and the dispatched events
    alone, and of every ring the position, the scale, the rotation about x
    and z and all fields of the [ring-focus] component. *)
Theorem drag_events_only_turn (s : Scene) (ev : Event) :
  is_drag_event ev = true →
  ring_manager (step s ev) = ring_manager s
  ∧ rafQueue (step s ev) = rafQueue s
  ∧ dispatched (step s ev) = dispatched s
  ∧ non_drag_view <$> entities (step s ev) = non_drag_view <$> entities s.
Proof.
  intros Hev.
  destruct non_drag_view_drag as (Hdown & Hmove & Hup & Htick).
  destruct ev; try discriminate Hev; simpl.
  - destruct (update_entity_rest s el
                (onPointerDown (ring_manager s) evt)) as (-> & -> & ->).
    do 3 (split; [done |]). by apply fmap_update_entity.
  - do 3 (split; [done |]). apply fmap_map_entities. intros r.
    by destruct (_attached (drag_rotate r)).
  - do 3 (split; [done |]). by apply fmap_map_entities.
  - do 3 (split; [done |]). by apply fmap_map_entities.
Qed.

Lemma drag_events_only_turn_witness :
  non_drag_view <$> entities (step sample_focused (PointerDown 0%nat (mouse 5)))
  = non_drag_view <$> entities sample_focused.
Proof.
  by apply (drag_events_only_turn sample_focused (PointerDown 0%nat (mouse 5))).
Defined.

(** X6: Clicks, close notifications and animation frames never touch the
    state of a [drag-rotate] component: a drag in progress stays in
    progress, with the start x and start yaw it recorded, through any
    animation. *)
Theorem focus_events_keep_drag_state (s : Scene) (ev : Event) :
  is_drag_event ev = false →
  drag_rotate <$> entities (step s ev) = drag_rotate <$> entities s.
Proof.
  intros Hev. destruct ev; try discriminate Hev; simpl.
  - by apply view_onClick.
  - by apply view_dispatch.
  - unfold animationFrame. by rewrite view_callbacks.
Qed.

(** X7: What [init] stored is never written again: through any run of
    events, from any scene, every ring keeps its baseline transform and its
    sensitivity, and no ring appears or disappears. *)
Theorem configuration_is_immutable (s : Scene) (evs : list Event) :
  (λ r, (baseline r, sensitivity (drag_rotate r))) <$> entities (run s evs)
  = (λ r, (baseline r, sensitivity (drag_rotate r))) <$> entities s
  ∧ length (entities (run s evs)) = length (entities s).
Proof.
  assert (H :
    (λ r, (baseline r, sensitivity (drag_rotate r))) <$> entities (run s evs)
    = (λ r, (baseline r, sensitivity (drag_rotate r))) <$> entities s).
  { revert s. induction evs as [| ev evs IH]; intros s; [done |].
    simpl. rewrite IH. apply view_step; try done.
    - intros m evt r. unfold onPointerDown. by destruct (manager.isBusy m).
    - intros evt r. unfold onPointerMove. by destruct (negb _).
    - intros r. unfold tick.
      by destruct (_ && _); [| destruct (_ && _)]. }
  split; [done |].
  apply (f_equal length) in H. by rewrite !length_fmap in H.
Qed.

(** ** Animations cannot be interrupted *)

Lemma update_entity_same (s : Scene) (el : nat) (f : Entity → Entity) :
  (∀ r, entities s !! el = Some r → f r = r) → update_entity el f s = s.
Proof.
  intros Hf. unfold update_entity.
  destruct (entities s !! el) as [r |] eqn:Hel; [| done].
  rewrite (Hf r eq_refl). unfold set_entity.
  rewrite list_insert_id by done. by destruct s.
Qed.

(** X8: While an animation is in flight nothing but an animation frame can
    touch it: every other event leaves the queued callback and the manager
    as they are, and a click on any ring, a close notification and a
    pointer-down on any ring leave the whole scene as it is. *)
Theorem animation_not_interruptible (rings : list (Object3D * Qc))
    (evs : list Event) (cb : FrameCallback) (ev : Event) :
  let s := run (init_scene rings) evs in
  rafQueue s = [cb] →
  (∀ time, ev ≠ AnimationFrame time) →
  rafQueue (step s ev) = [cb]
  ∧ ring_manager (step s ev) = ring_manager s
  ∧ (ev ≠ PointerUp → ev ≠ Tick → (∀ evt, ev ≠ PointerMove evt) →
     step s ev = s).
Proof.
  intros s Hq Hev.
  assert (Hb : manager.isBusy (ring_manager s) = true).
  { destruct (invariants_run rings evs) as [Hinv _].
    destruct (inv_queue _ Hinv) as [[_ Hq'] | [Hb _]]; [| done].
    fold s in Hq'. congruence. }
  assert (Hdown : ∀ el evt, step s (PointerDown el evt) = s).
  { intros el evt. simpl. apply update_entity_same. intros r _.
    unfold onPointerDown. by rewrite Hb. }
  destruct ev as [el now cam | now | time | el evt | evt | |].
  - assert (Hclick : step s (Click el now cam) = s).
    { simpl. unfold onClick. destruct (entities s !! el); [| done].
      by rewrite Hb. }
    by rewrite Hclick.
  - assert (Hclose : step s (CloseFocusedRing now) = s)
      by (by apply dispatch_busy).
    by rewrite Hclose.
  - by destruct (Hev time).
  - by rewrite Hdown.
  - repeat split; try done. intros _ _ Hmove. by destruct (Hmove evt).
  - repeat split; try done.
  - repeat split; try done.
Qed.

Lemma animation_not_interruptible_witness :
  step sample_focusing (Click 1%nat (num 100 1) sample_camera)
  = sample_focusing.
Proof.
  pose proof (λ cb, animation_not_interruptible sample_rings
                      [Click 0%nat 0 sample_camera] cb
                      (Click 1%nat (num 100 1) sample_camera)) as H.
  cbv zeta in H.
  edestruct H as (_ & _ & H'); [reflexivity | discriminate |].
  apply H'; discriminate.
Defined.

(** X9: An animation lasts until the first frame on which the callback's
    test [t < 1] fails: a frame on which the test holds queues the same
    callback again, keeps the session busy and dispatches nothing; the
    frame on which it fails empties the queue, frees the session, clears
    [isAnimating], leaves [isFocused] set after a focus and cleared after a
    close animation, and dispatches the one event for the close button. *)
Theorem animation_runs_until_last_frame (rings : list (Object3D * Qc))
    (evs : list Event) (cb : FrameCallback) (time : Qc) :
  let s := run (init_scene rings) evs in
  let s' := step s (AnimationFrame time) in
  rafQueue s = [cb] →
  (num_lt (progress (callback_t0 cb) time) 1 = true →
     rafQueue s' = [cb]
     ∧ manager.isBusy (ring_manager s') = true
     ∧ dispatched s' = dispatched s
     ∧ ring_focus <$> entities s' = ring_focus <$> entities s)
  ∧ (completes (callback_t0 cb) time →
     rafQueue s' = []
     ∧ manager.isBusy (ring_manager s') = false
     ∧ dispatched s' =
         (if closing cb then hide_close_button else show_close_button)
           :: dispatched s
     ∧ (isFocused ∘ ring_focus) <$> entities s' !! callback_el cb
       = Some (negb (closing cb))
     ∧ (isAnimating ∘ ring_focus) <$> entities s' !! callback_el cb
       = Some false).
Proof.
  intros s s' Hq. subst s'. simpl.
  destruct (invariants_run rings evs) as [Hinv _]. fold s in Hinv.
  destruct (queued_callback s cb Hinv) as [_ Hcb];
    [rewrite Hq; apply list_elem_of_here |].
  assert (Hb : manager.isBusy (ring_manager s) = true).
  { destruct (inv_queue _ Hinv) as [[_ Hq'] | [Hb _]]; [congruence | done]. }
  rewrite (animationFrame_single time s cb Hq).
  destruct cb as [el sp tg ss ts t0 | el sp ep ss es sr er t0]; simpl in *;
    destruct Hcb as (r & Hel & _).
  - split.
    + intros Hlt.
      edestruct (animate_continues el sp tg ss ts t0 time
        (mkScene (ring_manager s) (entities s) [] (dispatched s)) r)
        as [o ->]; [done .. |]. simpl.
      do 3 (split; [done |]).
      rewrite list_fmap_insert. simpl. apply list_insert_id.
      by rewrite list_lookup_fmap, Hel.
    + intros Hc.
      erewrite animate_completes by done. simpl.
      do 3 (split; [done |]).
      rewrite list_lookup_insert_eq by (by apply lookup_lt_is_Some). done.
  - split.
    + intros Hlt.
      edestruct (animateBack_continues el sp ep ss es sr er t0 time
        (mkScene (ring_manager s) (entities s) [] (dispatched s)) r)
        as [o ->]; [done .. |]. simpl.
      do 3 (split; [done |]).
      rewrite list_fmap_insert. simpl. apply list_insert_id.
      by rewrite list_lookup_fmap, Hel.
    + intros Hc.
      erewrite animateBack_completes by done. simpl.
      do 3 (split; [done |]).
      rewrite list_lookup_insert_eq by (by apply lookup_lt_is_Some). done.
Qed.

Lemma animation_runs_until_last_frame_witness :
  rafQueue (step sample_focusing (AnimationFrame (num 600 1))) = []
  ∧ manager.isBusy
      (ring_manager (step sample_focusing (AnimationFrame (num 600 1))))
    = false.
Proof.
  pose proof (λ cb, animation_runs_until_last_frame sample_rings
                      [Click 0%nat 0 sample_camera] cb (num 600 1)) as H.
  cbv zeta in H.
  edestruct H as [_ H']; [reflexivity |].
  destruct H' as (Hq & Hb & _); [reflexivity | by split].
Defined.

(** In exact arithmetic the test fails from 600 ms after the start on
    ([completes_iff]); in binary64 the frame whose timestamp is the sum
    of the start and 600 can still pass it. *)
Example frame_at_600_in_binary64 :
  (Binary64.progress 4000.4 4600.4 <? 1)%float = true
  ∧ (4000.4 + 600 <=? 4600.4)%float = true.
Proof. by split. Qed.

(** ** Close notifications that find nothing to close *)

(** X10: A close notification is ignored by every ring, and the scene stays
    as it is, when the session is busy or when no ring is focused. *)
Theorem dispatchClose_ignored (now : Qc) (s : Scene) :
  manager.isBusy (ring_manager s) = true
  ∨ (∀ el r, entities s !! el = Some r →
             isFocused (ring_focus r) = false) →
  step s (CloseFocusedRing now) = s.
Proof.
  intros H. simpl. unfold dispatchClose.
  destruct (manager.isBusy (ring_manager s)) eqn:Hb;
    [by apply dispatch_busy |].
  destruct H as [? | Hnone]; [done |].
  destruct (dispatch_first now s (length (entities s)) Hb)
    as [[-> _] | (el & r & _ & Hel & Hf & _)]; [done |].
  rewrite (Hnone el r Hel) in Hf. discriminate Hf.
Qed.

Lemma dispatchClose_ignored_witness :
  step sample_focusing (CloseFocusedRing (num 100 1)) = sample_focusing.
Proof.
  apply dispatchClose_ignored. left. reflexivity.
Defined.

(** ** The easing curves *)

(** Goals about the order of [Qc] are moved to [Q], where [lra] and [nra]
    decide them. *)
Ltac qc_to_q :=
  unfold easeOutCubic, easeInOutCubic, Math.pow, Qcpower, MathUtils.lerp,
    num, Qcle, Qclt, Qcdiv, Qcminus, Qcplus, Qcmult, Qcopp, Qcinv, Q2Qc in *;
  simpl this in *; rewrite ?Qred_correct in *.

Lemma Q_square_nonneg (a : Q) : (0 <= a * a)%Q.
Proof. destruct (Qlt_le_dec a 0); nra. Qed.

Lemma Q_cube_mono_nonneg (a b : Q) :
  (0 <= a)%Q → (a <= b)%Q → (a * a * a <= b * b * b)%Q.
Proof.
  intros Ha Hab.
  assert (H2 : (a * a <= b * b)%Q) by nra.
  assert (Hb : (0 <= b)%Q) by lra.
  assert (H3 : (0 <= (b * b - a * a) * b)%Q)
    by (apply Qmult_le_0_compat; lra).
  assert (H4 : (0 <= a * a * (b - a))%Q)
    by (apply Qmult_le_0_compat; [apply Q_square_nonneg | lra]).
  nra.
Qed.

Lemma Q_cube_mono (a b : Q) : (a <= b)%Q → (a * a * a <= b * b * b)%Q.
Proof.
  intros Hab.
  destruct (Qlt_le_dec a 0) as [Ha | Ha];
    [| by apply Q_cube_mono_nonneg].
  destruct (Qlt_le_dec b 0) as [Hb | Hb].
  - assert (H : (- b * - b * - b <= - a * - a * - a)%Q)
      by (apply Q_cube_mono_nonneg; lra).
    nra.
  - pose proof (Q_square_nonneg a) as Hsa.
    pose proof (Q_square_nonneg b) as Hsb.
    assert (H1 : (0 <= a * a * - a)%Q) by (apply Qmult_le_0_compat; lra).
    assert (H2 : (0 <= b * b * b)%Q) by (apply Qmult_le_0_compat; lra).
    nra.
Qed.

Lemma progress_le_1 (t0 time : Qc) : progress t0 time ≤ 1.
Proof.
  unfold progress, Math.min.
  destruct (num_lt ((time - t0) / duration) 1) eqn:E.
  - by apply Qclt_le_weak, num_lt_true.
  - apply Qcle_refl.
Qed.

Lemma progress_nonneg (t0 time : Qc) : t0 ≤ time → 0 ≤ progress t0 time.
Proof.
  intros Hle. unfold progress, Math.min.
  destruct (num_lt ((time - t0) / duration) 1) eqn:E; [| done].
  clear E. unfold duration. qc_to_q.
  apply Qmult_le_0_compat; [lra | discriminate].
Qed.

Lemma num_lt_half_true (t : Qc) : num_lt t (num 1 2) = true → (this t < 1 # 2)%Q.
Proof. intros H. apply num_lt_true in H. exact H. Qed.

Lemma num_lt_half_false (t : Qc) :
  num_lt t (num 1 2) = false → (1 # 2 <= this t)%Q.
Proof. intros H. apply num_lt_false in H. exact H. Qed.

Lemma easeOutCubic_unit (t : Qc) :
  0 ≤ t → t ≤ 1 → 0 ≤ easeOutCubic t ∧ easeOutCubic t ≤ 1.
Proof.
  intros H0 H1. qc_to_q.
  pose proof (Q_cube_mono 0 (1 + - this t)) as Ha.
  pose proof (Q_cube_mono (1 + - this t) 1) as Hb.
  split; nra.
Qed.

Lemma Qc_half (x : Qc) : x / num 2 1 = x * num 1 2.
Proof. by unfold Qcdiv; f_equal; apply Qc_is_canon. Qed.

Lemma easeInOutCubic_unit (t : Qc) :
  0 ≤ t → t ≤ 1 → 0 ≤ easeInOutCubic t ∧ easeInOutCubic t ≤ 1.
Proof.
  intros H0 H1. unfold easeInOutCubic.
  destruct (num_lt t (num 1 2)) eqn:E.
  - apply num_lt_half_true in E. qc_to_q.
    pose proof (Q_cube_mono 0 (this t)) as Ha.
    pose proof (Q_cube_mono (this t) (1 # 2)) as Hb.
    split; nra.
  - apply num_lt_half_false in E. rewrite Qc_half. qc_to_q.
    pose proof (Q_cube_mono 0 (-2 * this t + 2)) as Ha.
    pose proof (Q_cube_mono (-2 * this t + 2) 1) as Hb.
    split; nra.
Qed.

(** X11: On a frame whose timestamp is not before the start of the
    animation the progress is in [0, 1] and both easing curves map it into
    [0, 1]: the factor the frame interpolates with never leaves the unit
    interval. *)
Theorem easing_stays_in_unit_interval (t0 time : Qc) :
  t0 ≤ time →
  (0 ≤ progress t0 time ∧ progress t0 time ≤ 1)
  ∧ (0 ≤ easeOutCubic (progress t0 time)
     ∧ easeOutCubic (progress t0 time) ≤ 1)
  ∧ (0 ≤ easeInOutCubic (progress t0 time)
     ∧ easeInOutCubic (progress t0 time) ≤ 1).
Proof.
  intros Ht.
  pose proof (progress_nonneg t0 time Ht) as Hp0.
  pose proof (progress_le_1 t0 time) as Hp1.
  split; [done |].
  split; [by apply easeOutCubic_unit | by apply easeInOutCubic_unit].
Qed.

Lemma easing_stays_in_unit_interval_witness :
  0 ≤ easeOutCubic (progress 0 (num 300 1))
  ∧ easeOutCubic (progress 0 (num 300 1)) ≤ 1.
Proof.
  refine (proj1 (proj2 (easing_stays_in_unit_interval 0 (num 300 1) _))).
  discriminate.
Defined.

(** X12: The progress is clamped above only: on a frame whose timestamp is
    not after the start of the animation (the frame's timestamp can be
    older than the [performance.now()] the handler read) the progress is
    the quotient [(time - t0) / duration] itself, which is not positive,
    and neither easing curve is positive there. *)
Theorem early_frame_is_not_clamped (t0 time : Qc) :
  time ≤ t0 →
  progress t0 time = (time - t0) / duration
  ∧ progress t0 time ≤ 0
  ∧ easeOutCubic (progress t0 time) ≤ 0
  ∧ easeInOutCubic (progress t0 time) ≤ 0.
Proof.
  intros Hle.
  assert (Hx : (time - t0) / duration ≤ 0).
  { unfold duration. qc_to_q.
    assert (H : (0 <= (t0 + - time) * / 600)%Q)
      by (apply Qmult_le_0_compat; [lra | discriminate]).
    nra. }
  assert (Heq : progress t0 time = (time - t0) / duration).
  { unfold progress, Math.min.
    destruct (num_lt ((time - t0) / duration) 1) eqn:E; [done |].
    apply num_lt_false in E. exfalso.
    assert (H1 : (1 : Qc) ≤ 0) by (by apply (Qcle_trans _ _ _ E)).
    by apply H1. }
  split; [done |]. rewrite Heq.
  generalize dependent ((time - t0) / duration). intros p Hp _.
  split; [done |]. split.
  - qc_to_q. pose proof (Q_cube_mono 1 (1 + - this p)) as H. nra.
  - unfold easeInOutCubic.
    assert (E : num_lt p (num 1 2) = true).
    { apply num_lt_true. by apply (Qcle_lt_trans _ 0). }
    rewrite E. qc_to_q.
    pose proof (Q_square_nonneg (this p)) as Hs.
    assert (H : (0 <= this p * this p * - this p)%Q)
      by (apply Qmult_le_0_compat; lra).
    nra.
Qed.

Lemma early_frame_is_not_clamped_witness :
  progress (num 10 1) 0 = (0 - num 10 1) / duration.
Proof.
  refine (proj1 (early_frame_is_not_clamped (num 10 1) 0 _)).
  discriminate.
Defined.

(** X13: Both easing curves are monotone on all numbers: a later frame never
    takes the ring further back than an earlier one. *)
Theorem easing_is_monotone (t1 t2 : Qc) :
  t1 ≤ t2 →
  easeOutCubic t1 ≤ easeOutCubic t2
  ∧ easeInOutCubic t1 ≤ easeInOutCubic t2.
Proof.
  intros Hle. split.
  - qc_to_q.
    pose proof (Q_cube_mono (1 + - this t2) (1 + - this t1)) as H. nra.
  - unfold easeInOutCubic.
    destruct (num_lt t1 (num 1 2)) eqn:E1, (num_lt t2 (num 1 2)) eqn:E2.
    + qc_to_q. pose proof (Q_cube_mono (this t1) (this t2)) as H. nra.
    + apply num_lt_half_true in E1. apply num_lt_half_false in E2.
      rewrite Qc_half. qc_to_q.
      pose proof (Q_cube_mono (this t1) (1 # 2)) as Ha.
      pose proof (Q_cube_mono (-2 * this t2 + 2) 1) as Hb.
      nra.
    + apply num_lt_half_true in E2. apply num_lt_half_false in E1.
      qc_to_q. lra.
    + rewrite !Qc_half. qc_to_q.
      pose proof (Q_cube_mono (-2 * this t2 + 2) (-2 * this t1 + 2)) as H.
      nra.
Qed.

Lemma easing_is_monotone_witness :
  easeOutCubic (num 1 4) ≤ easeOutCubic (num 3 4)
  ∧ easeInOutCubic (num 1 4) ≤ easeInOutCubic (num 3 4).
Proof.
  apply easing_is_monotone. discriminate.
Defined.

(** ** Dragging follows the pointer *)

(** X15: During a drag the yaw follows the pointer: with a sensitivity that
    is not negative, a move further to the right never gives a smaller
    yaw; with a sensitivity that is not positive, never a larger one. *)
Theorem drag_is_monotone (r : Entity) (e1 e2 : PointerEvt) :
  dragging (drag_rotate r) = true →
  pointerX e1 ≤ pointerX e2 →
  (0 ≤ sensitivity (drag_rotate r) →
   yaw (onPointerMove e1 r) ≤ yaw (onPointerMove e2 r))
  ∧ (sensitivity (drag_rotate r) ≤ 0 →
     yaw (onPointerMove e2 r) ≤ yaw (onPointerMove e1 r)).
Proof.
  intros Hd. unfold onPointerMove, yaw. rewrite Hd. simpl.
  generalize (pointerX e1) (pointerX e2) (startYaw (drag_rotate r))
             (startX (drag_rotate r)) (sensitivity (drag_rotate r)).
  intros x1 x2 y0 x0 k Hx. split; intros Hk; qc_to_q.
  - assert (H : (0 <= (x2 + - x1) * k)%Q)
      by (apply Qmult_le_0_compat; lra).
    nra.
  - assert (H : (0 <= (x2 + - x1) * - k)%Q)
      by (apply Qmult_le_0_compat; lra).
    nra.
Qed.

Lemma drag_is_monotone_witness :
  yaw (onPointerMove (mouse 10)
         (onPointerDown manager.init (mouse 0) sample_entity))
  ≤ yaw (onPointerMove (mouse 20)
           (onPointerDown manager.init (mouse 0) sample_entity)).
Proof.
  refine (proj1 (drag_is_monotone
            (onPointerDown manager.init (mouse 0) sample_entity)
            (mouse 10) (mouse 20) _ _) _); [reflexivity | discriminate ..].
Defined.

(** ** Animations start where the ring is *)

Lemma progress_at_start (t0 : Qc) : progress t0 t0 = 0.
Proof.
  unfold progress.
  replace ((t0 - t0) / duration) with 0 by (unfold Qcdiv; ring).
  by apply Qc_is_canon.
Qed.

Lemma easeOutCubic_0 : easeOutCubic 0 = 0.
Proof. by apply Qc_is_canon. Qed.

Lemma easeInOutCubic_0 : easeInOutCubic 0 = 0.
Proof. by apply Qc_is_canon. Qed.

Lemma lerpVectors_0 (v1 v2 : Vector3.t) : Vector3.lerpVectors v1 v2 0 = v1.
Proof.
  destruct v1, v2. unfold Vector3.lerpVectors. simpl. f_equal; ring.
Qed.

Lemma lerp_0 (x y : Qc) : MathUtils.lerp x y 0 = x.
Proof. unfold MathUtils.lerp. ring. Qed.

Lemma set_entity_same (s : Scene) (el : nat) (r : Entity) :
  entities s !! el = Some r → set_entity el r s = s.
Proof.
  intros Hel. unfold set_entity. rewrite list_insert_id by done.
  by destruct s.
Qed.

(** X16: A frame that carries the timestamp the handler read changes
    nothing: right after an accepted click or close notification the first
    frame finds the progress 0, puts the ring where it already is and queues
    the callback again. *)
Theorem frame_at_start_changes_nothing (s : Scene) (el : nat) (now : Qc)
    (cam : Camera) :
  rafQueue s = [] →
  step (step s (Click el now cam)) (AnimationFrame now)
  = step s (Click el now cam)
  ∧ step (step s (CloseFocusedRing now)) (AnimationFrame now)
    = step s (CloseFocusedRing now).
Proof.
  intros Hq.
  assert (Hidle : animationFrame now s = s).
  { unfold animationFrame. rewrite Hq. simpl. by apply empty_queue. }
  assert (Hp : num_lt (progress now now) 1 = true)
    by (by rewrite progress_at_start).
  split; simpl.
  - destruct (entities s !! el) as [r |] eqn:Hel;
      [| unfold onClick; by rewrite Hel].
    destruct (manager.isBusy (ring_manager s)) eqn:Hb;
      [unfold onClick; by rewrite Hel, Hb |].
    destruct (active r) eqn:Hact.
    { unfold onClick. rewrite Hel, Hb. unfold active in Hact.
      by rewrite Hact. }
    rewrite (onClick_starts s el r now cam Hel Hb Hact), Hq.
    unfold animationFrame. cbn -[progress animate]. unfold animate.
    rewrite Hp, progress_at_start, easeOutCubic_0, !lerpVectors_0.
    erewrite update_entity_Some
      by (simpl; apply list_lookup_insert_eq; by apply lookup_lt_is_Some).
    unfold requestAnimationFrame, set_entity. simpl.
    rewrite list_insert_insert_eq. by destruct r as [[] ? ?].
  - unfold dispatchClose.
    destruct (manager.isBusy (ring_manager s)) eqn:Hb;
      [by rewrite dispatch_busy |].
    destruct (dispatch_first now s (length (entities s)) Hb)
      as [[-> _] | (el' & r & _ & Hel & Hf & _ & ->)]; [done |].
    rewrite (onClose_starts s el' r now Hel Hf Hb), Hq.
    unfold animationFrame. cbn -[progress animateBack]. unfold animateBack.
    rewrite Hp, progress_at_start, easeInOutCubic_0, !lerpVectors_0, !lerp_0.
    erewrite update_entity_Some
      by (simpl; apply list_lookup_insert_eq; by apply lookup_lt_is_Some).
    unfold requestAnimationFrame, set_entity. simpl.
    rewrite list_insert_insert_eq. by destruct r as [[? ? []] ? ?].
Qed.

Lemma frame_at_start_changes_nothing_witness :
  step (step sample_scene (Click 0%nat 0 sample_camera)) (AnimationFrame 0)
  = step sample_scene (Click 0%nat 0 sample_camera).
Proof.
  refine (proj1 (frame_at_start_changes_nothing sample_scene 0%nat 0
                   sample_camera _)).
  reflexivity.
Defined.

(** ** A whole focus and close cycle *)

(** The close notification in a scene where ring [el] is the only
    focused ring is the [onClose] of that ring. *)
Lemma dispatchClose_only_focused (now : Qc) (s : Scene) (el : nat)
    (r : Entity) :
  manager.isBusy (ring_manager s) = false →
  entities s !! el = Some r →
  isFocused (ring_focus r) = true →
  (∀ el' r', el' ≠ el → entities s !! el' = Some r' →
             isFocused (ring_focus r') = false) →
  dispatchClose now s = onClose el now s.
Proof.
  intros Hb Hel Hf Hothers. unfold dispatchClose.
  destruct (dispatch_first now s (length (entities s)) Hb)
    as [[_ Hnone] | (el' & r' & _ & Hel' & Hf' & _ & ->)].
  - assert (Hlt : (el < length (entities s))%nat)
      by (by apply lookup_lt_is_Some).
    rewrite (Hnone el r Hlt Hel) in Hf. discriminate Hf.
  - destruct (decide (el' = el)) as [-> | Hne]; [done |].
    rewrite (Hothers el' r' Hne Hel') in Hf'. discriminate Hf'.
Qed.

(** X17: Round trip: in a reachable scene where no ring is focused or
    animating, clicking a ring, letting the focus animation complete,
    sending the close notification and letting the close animation complete
    gives the scene back as it was (manager, queue, flags, drag state, all
    other rings), with the two events for the close button dispatched and
    the transform of the ring set by the two last frames: its rotation is
    its original rotation (a yaw set by earlier drags is lost), its
    position and scale are what [lerpVectors] at 1 makes of the focused
    value and the original one. *)
Theorem focus_close_cycle (rings : list (Object3D * Qc)) (evs : list Event)
    (el : nat) (r : Entity) (cam : Camera) (t0 t1 t2 t3 : Qc) :
  let s := run (init_scene rings) evs in
  entities s !! el = Some r →
  (∀ el' r', entities s !! el' = Some r' → active r' = false) →
  completes t0 t1 → completes t2 t3 →
  let focusedPos :=
    Vector3.lerpVectors (position (object3D r)) (focus_target cam r) 1 in
  let focusedScale :=
    Vector3.lerpVectors (scale (object3D r))
      (Vector3.multiplyScalar (scale (object3D r)) (num 145 100)) 1 in
  run s [Click el t0 cam; AnimationFrame t1;
         CloseFocusedRing t2; AnimationFrame t3]
  = mkScene (ring_manager s)
      (<[el := mkEntity
                 (mkObject3D
                    (Vector3.lerpVectors focusedPos
                       (originalPos (ring_focus r)) 1)
                    (Vector3.lerpVectors focusedScale
                       (originalScale (ring_focus r)) 1)
                    (originalRot (ring_focus r)))
                 (ring_focus r) (drag_rotate r)]>
         (entities s))
      (rafQueue s)
      (hide_close_button :: show_close_button :: dispatched s).
Proof.
  intros s Hel Hidle Hc1 Hc2. cbv zeta. rewrite !lerpVectors_1.
  destruct (invariants_run rings evs) as [Hinv Hfl]. fold s in Hinv, Hfl.
  assert (Hlt : (el < length (entities s))%nat) by (by apply lookup_lt_is_Some).
  (* the scene is at rest *)
  assert (Hrest : manager.isBusy (ring_manager s) = false ∧ rafQueue s = []).
  { destruct (inv_queue s Hinv) as [? | [_ (cb & Hq & Hcb)]]; [done |].
    assert (∃ r', entities s !! callback_el cb = Some r'
                  ∧ isAnimating (ring_focus r') = true) as (r' & Hr' & Ha).
    { destruct cb; simpl in *; destruct Hcb as (r' & ? & ? & _);
        by exists r'. }
    pose proof (Hidle _ _ Hr') as Hact. unfold active in Hact.
    rewrite Ha, orb_true_r in Hact. discriminate Hact. }
  destruct Hrest as [Hb Hq].
  assert (Hnone : manager.getFocused (ring_manager s) = None).
  { destruct (manager.getFocused (ring_manager s)) as [el' |] eqn:Hfoc;
      [| done].
    destruct (fi_focusedEl s Hfl el' Hfoc) as (r' & Hr' & Hact).
    rewrite (Hidle _ _ Hr') in Hact. discriminate Hact. }
  assert (Hm : ring_manager s = mkRingManager false None).
  { destruct (ring_manager s). simpl in *. by subst. }
  pose proof (Hidle el r Hel) as Hact.
  assert (Hflags : isFocused (ring_focus r) = false
                   ∧ isAnimating (ring_focus r) = false)
    by (by apply orb_false_elim).
  destruct Hflags as [Hf Ha].
  (* the click and the focus animation *)
  unfold run. cbn [fold_left step].
  rewrite (onClick_starts s el r t0 cam Hel Hb Hact), Hq.
  erewrite (animationFrame_single t1) by reflexivity. cbn [run_callback].
  erewrite animate_completes;
    [| simpl; by apply list_lookup_insert_eq | done].
  cbn [ring_manager entities rafQueue dispatched focusedEl].
  rewrite list_insert_insert_eq.
  (* the close notification and the close animation *)
  erewrite dispatchClose_only_focused with (el := el);
    [| done | simpl; by apply list_lookup_insert_eq | done |].
  2: { intros el' r' Hne Hr'. simpl in Hr'.
       rewrite list_lookup_insert_ne in Hr' by done.
       pose proof (Hidle _ _ Hr') as Hact'.
       by apply orb_false_elim in Hact' as [? _]. }
  erewrite onClose_starts;
    [| simpl; by apply list_lookup_insert_eq | done | done].
  cbn [ring_manager entities rafQueue dispatched focusedEl app].
  rewrite list_insert_insert_eq.
  erewrite (animationFrame_single t3) by reflexivity. cbn [run_callback].
  erewrite animateBack_completes;
    [| simpl; apply list_lookup_insert_eq; by rewrite ?length_insert | done].
  cbn [ring_manager entities rafQueue dispatched].
  rewrite list_insert_insert_eq, ?Hm, ?Hq. f_equal. f_equal.
  destruct r as [[p sc rot] [op os orot foc anim] d]. simpl in *.
  by subst.
Qed.

Lemma focus_close_cycle_witness :
  run (run (init_scene sample_rings) [])
      [Click 0%nat 0 sample_camera; AnimationFrame (num 600 1);
       CloseFocusedRing (num 1000 1); AnimationFrame (num 1600 1)]
  = mkScene (ring_manager sample_scene)
      (<[0%nat :=
           mkEntity
             (mkObject3D
                (Vector3.lerpVectors
                   (Vector3.lerpVectors (position (object3D sample_entity))
                      (focus_target sample_camera sample_entity) 1)
                   (originalPos (ring_focus sample_entity)) 1)
                (Vector3.lerpVectors
                   (Vector3.lerpVectors (scale (object3D sample_entity))
                      (Vector3.multiplyScalar (scale (object3D sample_entity))
                                              (num 145 100)) 1)
                   (originalScale (ring_focus sample_entity)) 1)
                (originalRot (ring_focus sample_entity)))
             (ring_focus sample_entity) (drag_rotate sample_entity)]>
         (entities sample_scene))
      (rafQueue sample_scene)
      (hide_close_button :: show_close_button :: dispatched sample_scene).
Proof.
  apply (focus_close_cycle sample_rings [] 0%nat sample_entity sample_camera
           0 (num 600 1) (num 1000 1) (num 1600 1));
    [reflexivity | | reflexivity | reflexivity].
  intros [| [| [| el']]] r' Hr'; simpl in Hr';
    [injection Hr' as <-; reflexivity .. | discriminate Hr'].
Defined.

(** * Listeners and teardown *)

Lemma live_nil (n : nat) : live [] n = seq 0 n.
Proof.
  unfold live. induction (seq 0 n) as [| a l IH]; [done |].
  rewrite filter_cons_True by apply not_elem_of_nil. by rewrite IH.
Qed.

Lemma elem_of_live (removed : list nat) (n el : nat) :
  el ∈ live removed n ↔ (el < n)%nat ∧ el ∉ removed.
Proof.
  unfold live. rewrite list_elem_of_filter, elem_of_seq. split.
  - intros [? ?]. split; [lia | done].
  - intros [? ?]. split; [done | lia].
Qed.

Lemma live_S (removed : list nat) (n : nat) :
  live removed (S n) =
    live removed n ++ (if decide (n ∈ removed) then [] else [n]).
Proof.
  unfold live. rewrite seq_S, list.filter_app. simpl. f_equal.
  rewrite filter_cons. by destruct (decide (n ∈ removed)); case_decide.
Qed.

Lemma live_cons (removed : list nat) (n el : nat) :
  live (el :: removed) n = filter (λ x, x ≠ el) (live removed n).
Proof.
  unfold live. rewrite list_filter_filter. apply list_filter_iff.
  intros x. rewrite not_elem_of_cons. tauto.
Qed.

(** Deciding the tests on targets, types and callbacks the registry
    operations make. *)
Ltac decide_keys :=
  repeat match goal with
  | |- context [decide ?P] =>
      first [ rewrite (decide_True (P := P)) by (by repeat split)
            | rewrite (decide_False (P := P)) by congruence
            | rewrite (decide_False (P := P)) by (intros [? ?]; congruence) ]
  end.

Lemma add_new (t : Target) (ty : EventType) (cb : Callback) (reg : Registry)
    (t' : Target) (ty' : EventType) :
  cb ∉ reg t ty →
  addEventListener t ty cb reg t' ty' =
    reg t' ty' ++ (if decide (t' = t ∧ ty' = ty) then [cb] else []).
Proof.
  intros Hnew. unfold addEventListener.
  destruct (decide (t' = t ∧ ty' = ty)) as [[-> ->] |];
    [| by rewrite app_nil_r].
  by destruct (decide (cb ∈ reg t ty)).
Qed.

Lemma not_elem_of_live_self (removed : list nat) (n : nat) :
  n ∉ live removed n.
Proof. rewrite elem_of_live. lia. Qed.

#[global] Instance ring_focus_onClose_inj : Inj (=) (=) ring_focus_onClose.
Proof. by intros ? ? [=]. Qed.

#[global] Instance drag_rotate_onPointerUp_inj :
  Inj (=) (=) drag_rotate_onPointerUp.
Proof. by intros ? ? [=]. Qed.

#[global] Instance drag_rotate_onPointerMove_inj :
  Inj (=) (=) drag_rotate_onPointerMove.
Proof. by intros ? ? [=]. Qed.

Lemma single_live_S (c : nat → Callback) (k el : nat) :
  (if decide (el ∈ live [] (S k)) then [c el] else [])
  = (if decide (el ∈ live [] k) then [c el] else [])
    ++ (if decide (el = k) then [c k] else []).
Proof.
  destruct (decide (el = k)) as [-> | Hne].
  - rewrite decide_True, decide_False; [done | |].
    + apply not_elem_of_live_self.
    + apply elem_of_live. split; [lia | apply not_elem_of_nil].
  - rewrite app_nil_r. apply decide_ext. rewrite !elem_of_live.
    split; intros [? ?]; (split; [lia | done]).
Qed.

Lemma fmap_live_S (c : nat → Callback) (k : nat) :
  c <$> live [] (S k) = (c <$> live [] k) ++ [c k].
Proof.
  rewrite live_S, fmap_app.
  by rewrite decide_False by apply not_elem_of_nil.
Qed.

Lemma base_listeners_S (k : nat) (t : Target) (ty : EventType) :
  base_listeners (S k) [] [] t ty
  = base_listeners k [] [] t ty ++ init_adds k t ty.
Proof.
  destruct t as [| el], ty; cbn [base_listeners init_adds];
    first [ done | apply single_live_S | apply fmap_live_S ].
Qed.

Lemma init_listeners (k : nat) (t : Target) (ty : EventType) :
  fold_left (λ reg el, drag_rotate_listen el (ring_focus_listen el reg))
            (seq 0 k) no_listeners t ty
  = base_listeners k [] [] t ty.
Proof.
  revert t ty. induction k as [| k IH]; intros t ty.
  - by destruct t, ty.
  - rewrite seq_S, fold_left_app, base_listeners_S. cbn [fold_left].
    set (reg := fold_left _ (seq 0 k) no_listeners) in *.
    assert (Hk : k ∉ live [] k) by apply not_elem_of_live_self.
    assert (Hup : drag_rotate_onPointerUp k
                  ∉ drag_rotate_onPointerUp <$> live [] k)
      by (by rewrite (list_elem_of_fmap_inj _)).
    assert (Hclose : ring_focus_onClose k
                     ∉ ring_focus_onClose <$> live [] k)
      by (by rewrite (list_elem_of_fmap_inj _)).
    unfold drag_rotate_listen, ring_focus_listen.
    assert (Hnew : ∀ t0 ty0 cb,
      cb ∈ init_adds k t0 ty0 → cb ∉ base_listeners k [] [] t0 ty0).
    { intros t0 ty0 cb Hin.
      destruct t0 as [| el], ty0; cbn [init_adds base_listeners] in *;
        try (by apply elem_of_nil in Hin);
        try (apply list_elem_of_singleton in Hin as ->; done);
        case_decide; try (by apply elem_of_nil in Hin); subst;
        rewrite decide_False by done; apply not_elem_of_nil. }
    change (0 + k)%nat with k. unfold drag_rotate_listen, ring_focus_listen.
    assert (Hadd : ∀ t0 ty0 cb (r : Registry) (extra : list Callback),
      r t0 ty0 = base_listeners k [] [] t0 ty0 ++ extra →
      extra = [] → cb ∈ init_adds k t0 ty0 →
      ∀ t ty, addEventListener t0 ty0 cb r t ty =
              r t ty ++ (if decide (t = t0 ∧ ty = ty0) then [cb] else [])).
    { intros t0 ty0 cb r extra Hr -> Hin t' ty'. apply add_new.
      rewrite Hr, app_nil_r. by apply Hnew. }
    set (r1 := addEventListener (El k) click _ reg).
    assert (H1 : ∀ t ty, r1 t ty = reg t ty ++
      (if decide (t = El k ∧ ty = click) then [ring_focus_onClick k]
       else [])).
    { apply (Hadd _ _ _ _ []); [by rewrite IH, app_nil_r | done |].
      cbn. rewrite decide_True by done. apply list_elem_of_here. }
    set (r2 := addEventListener Window close_focused_ring _ r1).
    assert (H2 : ∀ t ty, r2 t ty = r1 t ty ++
      (if decide (t = Window ∧ ty = close_focused_ring)
       then [ring_focus_onClose k] else [])).
    { eapply Hadd; [by rewrite H1, IH | by rewrite decide_False by (by intros []) |].
      apply list_elem_of_here. }
    set (r3 := addEventListener (El k) mousedown _ r2).
    assert (H3 : ∀ t ty, r3 t ty = r2 t ty ++
      (if decide (t = El k ∧ ty = mousedown)
       then [drag_rotate_onPointerDown k] else [])).
    { eapply Hadd; [by rewrite H2, H1, IH, <- app_assoc |
                    by rewrite !decide_False by (by intros []) |].
      cbn. rewrite decide_True by done. apply list_elem_of_here. }
    set (r4 := addEventListener (El k) touchstart _ r3).
    assert (H4 : ∀ t ty, r4 t ty = r3 t ty ++
      (if decide (t = El k ∧ ty = touchstart)
       then [drag_rotate_onPointerDown k] else [])).
    { eapply Hadd; [by rewrite H3, H2, H1, IH, <- !app_assoc |
                    by rewrite !decide_False by (by intros []) |].
      cbn. rewrite decide_True by done. apply list_elem_of_here. }
    set (r5 := addEventListener Window mouseup _ r4).
    assert (H5 : ∀ t ty, r5 t ty = r4 t ty ++
      (if decide (t = Window ∧ ty = mouseup)
       then [drag_rotate_onPointerUp k] else [])).
    { eapply Hadd; [by rewrite H4, H3, H2, H1, IH, <- !app_assoc |
                    by rewrite !decide_False by (by intros []) |].
      apply list_elem_of_here. }
    erewrite Hadd;
      [| by rewrite H5, H4, H3, H2, H1, IH, <- !app_assoc
       | by rewrite !decide_False by (by intros [])
       | apply list_elem_of_here].
    rewrite H5, H4, H3, H2, H1, IH, <- !app_assoc. f_equal.
    destruct t as [| el]; [| destruct (decide (el = k)) as [-> | Hne]];
      destruct ty; cbn [init_adds]; by decide_keys.
Qed.

Lemma page_inv_init (rings : list (Object3D * Qc)) :
  page_inv (page_init rings).
Proof.
  assert (Hreg : ∀ t ty,
    listeners (page_init rings) t ty
    = base_listeners (length (entities (scene (page_init rings)))) [] [] t ty).
  { intros t ty. simpl. rewrite length_fmap. apply init_listeners. }
  split.
  - intros t ty _. apply Hreg.
  - intros ty Hty. rewrite Hreg. destruct ty; try done; apply NoDup_nil_2.
  - intros ty cb Hty. rewrite Hreg. split.
    + destruct ty; try done; intros Hin; by apply elem_of_nil in Hin.
    + intros (el & r & _ & _ & Hel & Ha). simpl in Hel.
      rewrite list_lookup_fmap in Hel.
      destruct (rings !! el) as [[o sens] |]; [| done].
      injection Hel as <-. done.
Qed.

(** The invariant reads the scene through the number of rings and their
    [_attached] flags only. *)
Lemma page_inv_scene (p : Page) (s' : Scene) :
  (_attached ∘ drag_rotate) <$> entities s'
  = (_attached ∘ drag_rotate) <$> entities (scene p) →
  page_inv p →
  page_inv (mkPage s' (listeners p) (focus_removed p) (drag_removed p)).
Proof.
  intros Hv [Hbase Hnodup Hmove].
  assert (Hlen : length (entities s') = length (entities (scene p))).
  { apply (f_equal length) in Hv. by rewrite !length_fmap in Hv. }
  assert (Hlook : ∀ el b,
    (∃ r, entities s' !! el = Some r ∧ _attached (drag_rotate r) = b)
    ↔ (∃ r, entities (scene p) !! el = Some r
            ∧ _attached (drag_rotate r) = b)).
  { intros el b.
    assert (H : ((_attached ∘ drag_rotate) <$> entities s') !! el
                = ((_attached ∘ drag_rotate) <$> entities (scene p)) !! el)
      by (by rewrite Hv).
    rewrite !list_lookup_fmap in H.
    destruct (entities s' !! el) as [r' |],
             (entities (scene p) !! el) as [r |]; simpl in H;
      try discriminate H.
    - injection H as H. split; intros (? & [= <-] & <-); eexists; by split.
    - split; intros (? & [=] & _). }
  split; simpl.
  - intros t ty Hk. rewrite Hlen. by apply Hbase.
  - done.
  - intros ty cb Hty. rewrite (Hmove ty cb Hty). split.
    + intros (el & r & -> & Hr & Hel & Ha).
      destruct (proj2 (Hlook el true)) as (r' & ? & ?); [by exists r |].
      by exists el, r'.
    + intros (el & r & -> & Hr & Hel & Ha).
      destruct (proj1 (Hlook el true)) as (r' & ? & ?); [by exists r |].
      by exists el, r'.
Qed.

Lemma attached_drag_handlers :
  (∀ m evt r, (_attached ∘ drag_rotate) (onPointerDown m evt r)
              = (_attached ∘ drag_rotate) r)
  ∧ (∀ evt r, (_attached ∘ drag_rotate) (onPointerMove evt r)
              = (_attached ∘ drag_rotate) r)
  ∧ (∀ r, (_attached ∘ drag_rotate) (onPointerUp r)
          = (_attached ∘ drag_rotate) r).
Proof.
  repeat split.
  - intros m evt r. unfold onPointerDown. by destruct (manager.isBusy m).
  - intros evt r. unfold onPointerMove. by destruct (negb _).
Qed.

Lemma invoke_attached (cb : Callback) (ev : Event) (s : Scene) :
  (_attached ∘ drag_rotate) <$> entities (invoke cb ev s)
  = (_attached ∘ drag_rotate) <$> entities s.
Proof.
  destruct attached_drag_handlers as (Hdown & Hmove & Hup).
  destruct cb, ev; simpl; try done.
  - by apply view_onClick.
  - by apply view_onClose.
  - by apply fmap_update_entity.
  - by apply fmap_update_entity.
  - by apply fmap_update_entity.
Qed.

Lemma deliver_attached (ev : Event) (reg : Registry) (s : Scene) :
  (_attached ∘ drag_rotate) <$> entities (deliver ev reg s)
  = (_attached ∘ drag_rotate) <$> entities s.
Proof.
  unfold deliver. generalize (reg (event_target ev) (event_type ev)).
  intros l. revert s. induction l as [| cb l IH]; intros s; [done |].
  simpl. by rewrite IH, invoke_attached.
Qed.

Lemma is_move_key (ty : EventType) :
  is_move ty = true ↔ ty = mousemove ∨ ty = touchmove.
Proof.
  destruct ty; simpl; split; try done; auto; by intros [? | ?].
Qed.

Lemma set_attached_tick (r : Entity) :
  tick r =
    if dragging (drag_rotate r) && negb (_attached (drag_rotate r))
    then set_attached true r
    else if negb (dragging (drag_rotate r)) && _attached (drag_rotate r)
         then set_attached false r else r.
Proof. done. Qed.

(** The move callback of a ring whose [_attached] flag is clear is not
    registered. *)
Lemma move_not_registered (p : Page) (el : nat) (r : Entity)
    (ty : EventType) :
  page_inv p →
  entities (scene p) !! el = Some r →
  _attached (drag_rotate r) = false →
  is_move ty = true →
  drag_rotate_onPointerMove el ∉ listeners p Window ty.
Proof.
  intros Hinv Hel Ha Hty Hin.
  apply (pi_move p Hinv ty _ Hty) in Hin
    as (el' & r' & [= <-] & _ & Hel' & Ha').
  congruence.
Qed.

Lemma page_inv_tick_el (p : Page) (el : nat) :
  page_inv p → page_inv (page_tick_el p el).
Proof.
  intros Hinv. unfold page_tick_el.
  destruct (decide (el ∈ drag_removed p)) as [| Hlive]; [done |].
  destruct (entities (scene p) !! el) as [r |] eqn:Hel; [| done].
  assert (Hlt : (el < length (entities (scene p)))%nat)
    by (by apply lookup_lt_is_Some).
  rewrite set_attached_tick. unfold tick_listeners.
  destruct (dragging (drag_rotate r)) eqn:Hd,
           (_attached (drag_rotate r)) eqn:Ha; simpl.
  - (* dragging, attached: nothing to do *)
    rewrite set_entity_same by done. by destruct p.
  - (* dragging, not attached: the listeners are added *)
    pose proof (move_not_registered p el r mousemove Hinv Hel Ha eq_refl)
      as Hm.
    pose proof (move_not_registered p el r touchmove Hinv Hel Ha eq_refl)
      as Ht.
    assert (Hreg : ∀ t ty,
      addEventListener Window touchmove (drag_rotate_onPointerMove el)
        (addEventListener Window mousemove (drag_rotate_onPointerMove el)
           (listeners p)) t ty
      = listeners p t ty ++
          (if decide (t = Window ∧ is_move ty = true)
           then [drag_rotate_onPointerMove el] else [])).
    { intros t ty. rewrite add_new; rewrite ?add_new; try done.
      - destruct t, ty; simpl; decide_keys; by rewrite ?app_nil_r.
      - by decide_keys; rewrite app_nil_r. }
    destruct Hinv as [Hbase Hnodup Hmove].
    split; simpl; rewrite ?length_insert.
    + intros t ty Hk. rewrite Hreg, decide_False, app_nil_r;
        [by apply Hbase |].
      intros [-> Hty]. destruct Hk; congruence.
    + intros ty Hty. rewrite Hreg, decide_True by done.
      apply list.NoDup_app. split; [by apply Hnodup |]. split; [| apply NoDup_singleton].
      intros cb Hin ->%list_elem_of_singleton.
      apply is_move_key in Hty as [-> | ->]; done.
    + intros ty cb Hty. rewrite Hreg, decide_True by done.
      rewrite elem_of_app, list_elem_of_singleton, (Hmove ty cb Hty).
      split.
      * intros [(el' & r' & -> & Hr' & Hel' & Ha') | ->].
        -- exists el', r'. repeat split; try done.
           rewrite list_lookup_insert_ne; [done |]. intros ->. congruence.
        -- exists el, (set_attached true r). repeat split; try done.
           by apply list_lookup_insert_eq.
      * intros (el' & r' & -> & Hr' & Hel' & Ha').
        destruct (decide (el = el')) as [<- | Hne]; [by right |].
        left. rewrite list_lookup_insert_ne in Hel' by done.
        by exists el', r'.
  - (* not dragging, attached: the listeners are removed *)
    assert (Hreg : ∀ t ty,
      removeEventListener Window touchmove (drag_rotate_onPointerMove el)
        (removeEventListener Window mousemove (drag_rotate_onPointerMove el)
           (listeners p)) t ty
      = if decide (t = Window ∧ is_move ty = true)
        then filter (λ c, c ≠ drag_rotate_onPointerMove el)
                    (listeners p t ty)
        else listeners p t ty).
    { intros t ty. unfold removeEventListener.
      destruct t, ty; simpl; by decide_keys. }
    destruct Hinv as [Hbase Hnodup Hmove].
    split; simpl; rewrite ?length_insert.
    + intros t ty Hk. rewrite Hreg, decide_False; [by apply Hbase |].
      intros [-> Hty]. destruct Hk; congruence.
    + intros ty Hty. rewrite Hreg, decide_True by done.
      by apply list.NoDup_filter, Hnodup.
    + intros ty cb Hty. rewrite Hreg, decide_True by done.
      rewrite list_elem_of_filter, (Hmove ty cb Hty). split.
      * intros [Hne (el' & r' & -> & Hr' & Hel' & Ha')].
        exists el', r'. repeat split; try done.
        rewrite list_lookup_insert_ne; [done |]. intros ->. congruence.
      * intros (el' & r' & -> & Hr' & Hel' & Ha').
        destruct (decide (el = el')) as [<- | Hne].
        -- rewrite list_lookup_insert_eq in Hel' by done.
           injection Hel' as <-. done.
        -- rewrite list_lookup_insert_ne in Hel' by done.
           split; [congruence |]. by exists el', r'.
  - (* not dragging, not attached: nothing to do *)
    rewrite set_entity_same by done. by destruct p.
Qed.

Lemma page_inv_tick (p : Page) (els : list nat) :
  page_inv p → page_inv (fold_left page_tick_el els p).
Proof.
  revert p. induction els as [| el els IH]; intros p Hinv; [done |].
  simpl. by apply IH, page_inv_tick_el.
Qed.

Lemma filter_fmap_ne (c : nat → Callback) `{!Inj (=) (=) c} (x : nat)
    (l : list nat) :
  filter (λ cb, cb ≠ c x) (c <$> l) = c <$> filter (λ y, y ≠ x) l.
Proof.
  induction l as [| y l IH]; [done |].
  rewrite fmap_cons, !filter_cons, IH.
  destruct (decide (y = x)) as [-> | Hne].
  - by rewrite decide_False, decide_False by (intros H; by apply H).
  - rewrite decide_True, decide_True; [done | done |].
    intros H. by apply Hne, (inj c).
Qed.

Lemma filter_not_elem_of (cb : Callback) (l : list Callback) :
  cb ∉ l → filter (λ c, c ≠ cb) l = l.
Proof.
  induction l as [| c l IH]; [done |]. intros Hnin.
  apply not_elem_of_cons in Hnin as [Hne Hnin].
  rewrite filter_cons_True by done. by rewrite IH.
Qed.

(** One listener of ring [el'], present when [el'] is live, after the
    listener of ring [el] was removed. *)
Lemma filter_single_live (c : nat → Callback) `{!Inj (=) (=) c}
    (removed : list nat) (n el el' : nat) :
  filter (λ cb, cb ≠ c el)
         (if decide (el' ∈ live removed n) then [c el'] else [])
  = if decide (el' ∈ live (el :: removed) n) then [c el'] else [].
Proof.
  assert (Hiff : el' ∈ live (el :: removed) n
                 ↔ el' ∈ live removed n ∧ el' ≠ el).
  { rewrite !elem_of_live, not_elem_of_cons. tauto. }
  destruct (decide (el' ∈ live removed n)) as [Hin | Hnin].
  - destruct (decide (el' = el)) as [-> | Hne].
    + rewrite filter_cons_False by (intros H; by apply H).
      rewrite decide_False; [done |]. rewrite Hiff. tauto.
    + rewrite filter_cons_True by (intros H; by apply Hne, (inj c)).
      rewrite decide_True; [done |]. by rewrite Hiff.
  - rewrite decide_False; [done |]. rewrite Hiff. tauto.
Qed.

Lemma single_live_other (c : nat → Callback) (removed : list nat)
    (n el el' : nat) :
  el' ≠ el →
  (if decide (el' ∈ live removed n) then [c el'] else [])
  = if decide (el' ∈ live (el :: removed) n) then [c el'] else [].
Proof.
  intros Hne. apply decide_ext.
  rewrite !elem_of_live, not_elem_of_cons. tauto.
Qed.

#[global] Instance ring_focus_onClick_inj : Inj (=) (=) ring_focus_onClick.
Proof. by intros ? ? [=]. Qed.

#[global] Instance drag_rotate_onPointerDown_inj :
  Inj (=) (=) drag_rotate_onPointerDown.
Proof. by intros ? ? [=]. Qed.

Lemma page_inv_remove_focus (p : Page) (el : nat) :
  page_inv p → page_inv (page_step p (RemoveRingFocus el)).
Proof.
  intros [Hbase Hnodup Hmove].
  assert (Hreg : ∀ t ty,
    ring_focus_remove el (listeners p) t ty
    = if decide (t = Window ∧ ty = close_focused_ring)
      then filter (λ c, c ≠ ring_focus_onClose el) (listeners p t ty)
      else if decide (t = El el ∧ ty = click)
           then filter (λ c, c ≠ ring_focus_onClick el) (listeners p t ty)
           else listeners p t ty).
  { intros t ty. unfold ring_focus_remove, removeEventListener.
    destruct t as [| el']; [| destruct (decide (el' = el)) as [-> | Hne]];
      destruct ty; by decide_keys. }
  split; simpl.
  - intros t ty Hk. rewrite Hreg, (Hbase t ty Hk).
    set (n := length (entities (scene p))).
    destruct t as [| el']; [| destruct (decide (el' = el)) as [-> | Hne]];
      destruct ty; decide_keys; cbn [base_listeners]; try done.
    + by rewrite (filter_fmap_ne _), live_cons.
    + by apply (filter_single_live _).
    + by apply single_live_other.
  - intros ty Hty. rewrite Hreg.
    apply is_move_key in Hty as [-> | ->]; decide_keys; by apply Hnodup.
  - intros ty cb Hty. rewrite Hreg, <- (Hmove ty cb Hty).
    apply is_move_key in Hty as [-> | ->]; by decide_keys.
Qed.

Lemma page_inv_remove_drag (p : Page) (el : nat) :
  page_inv p → page_inv (page_step p (RemoveDragRotate el)).
Proof.
  intros Hinv. simpl.
  destruct (entities (scene p) !! el) as [r |] eqn:Hel; [| done].
  assert (Hreg : ∀ t ty,
    drag_rotate_remove el r (listeners p) t ty
    = if decide (t = Window ∧ (ty = mouseup ∨ ty = touchend))
      then filter (λ c, c ≠ drag_rotate_onPointerUp el) (listeners p t ty)
      else if decide (t = El el ∧ (ty = mousedown ∨ ty = touchstart))
      then filter (λ c, c ≠ drag_rotate_onPointerDown el) (listeners p t ty)
      else if decide (t = Window ∧ is_move ty = true)
      then filter (λ c, c ≠ drag_rotate_onPointerMove el) (listeners p t ty)
      else listeners p t ty).
  { intros t ty. unfold drag_rotate_remove.
    destruct (_attached (drag_rotate r)) eqn:Ha.
    - unfold removeEventListener.
      destruct t as [| el']; [| destruct (decide (el' = el)) as [-> | Hne]];
        destruct ty; simpl; decide_keys; try done;
        repeat (rewrite decide_True by (split; auto));
        repeat (rewrite decide_False by (intros [? [? | ?]]; congruence));
        done.
    - assert (Hnot : ∀ ty, is_move ty = true →
        filter (λ c, c ≠ drag_rotate_onPointerMove el) (listeners p Window ty)
        = listeners p Window ty).
      { intros ty' Hty. apply filter_not_elem_of.
        by apply (move_not_registered p el r). }
      unfold removeEventListener.
      destruct t as [| el']; [| destruct (decide (el' = el)) as [-> | Hne]];
        destruct ty; simpl; decide_keys; rewrite ?Hnot by done; try done;
        repeat (rewrite decide_True by (split; auto));
        repeat (rewrite decide_False by (intros [? [? | ?]]; congruence));
        rewrite ?Hnot by done; done. }
  destruct Hinv as [Hbase Hnodup Hmove].
  split; simpl.
  - intros t ty Hk. rewrite Hreg, (Hbase t ty Hk).
    set (n := length (entities (scene p))).
    destruct t as [| el']; [| destruct (decide (el' = el)) as [-> | Hne]];
      destruct ty; simpl is_move; decide_keys;
      repeat (rewrite decide_True by (split; auto));
      repeat (rewrite decide_False by (intros [? [? | ?]]; congruence));
      cbn [base_listeners]; try done;
      try (by rewrite (filter_fmap_ne _), live_cons);
      try (by apply (filter_single_live _));
      try (by apply single_live_other).
    all: destruct Hk as [Hk | Hk]; done.
  - intros ty Hty. rewrite Hreg.
    rewrite decide_False by (intros [_ [-> | ->]]; done).
    rewrite decide_False by (by intros [? _]).
    rewrite decide_True by done.
    by apply list.NoDup_filter, Hnodup.
  - intros ty cb Hty. rewrite Hreg.
    rewrite decide_False by (intros [_ [-> | ->]]; done).
    rewrite decide_False by (by intros [? _]).
    rewrite decide_True by done.
    rewrite list_elem_of_filter, (Hmove ty cb Hty). split.
    + intros [Hne (el' & r' & -> & Hr' & Hel' & Ha')].
      exists el', r'. repeat split; try done.
      apply not_elem_of_cons. split; [congruence | done].
    + intros (el' & r' & -> & Hr' & Hel' & Ha').
      apply not_elem_of_cons in Hr' as [Hne Hr'].
      split; [congruence |]. by exists el', r'.
Qed.

Lemma page_inv_step (p : Page) (pev : PageEvent) :
  page_inv p → page_inv (page_step p pev).
Proof.
  intros Hinv. destruct pev as [ev | el | el].
  - destruct ev; simpl;
      try (apply (page_inv_scene p); [apply deliver_attached | done]).
    + apply (page_inv_scene p); [| done].
      exact (view_callbacks (_attached ∘ drag_rotate)
               (λ _ _, eq_refl) (λ _ _ _, eq_refl) time
               (rafQueue (scene p))
               (mkScene (ring_manager (scene p)) (entities (scene p)) []
                        (dispatched (scene p)))).
    + by apply page_inv_tick.
  - by apply page_inv_remove_focus.
  - by apply page_inv_remove_drag.
Qed.

Lemma page_inv_run (rings : list (Object3D * Qc)) (pevs : list PageEvent) :
  page_inv (page_run (page_init rings) pevs).
Proof.
  unfold page_run.
  assert (H : ∀ p, page_inv p → page_inv (fold_left page_step pevs p)).
  { induction pevs as [| pev pevs IH]; intros p Hinv; [done |].
    simpl. by apply IH, page_inv_step. }
  apply H, page_inv_init.
Qed.

Lemma page_tick_removed (p : Page) (els : list nat) :
  focus_removed (fold_left page_tick_el els p) = focus_removed p
  ∧ drag_removed (fold_left page_tick_el els p) = drag_removed p.
Proof.
  revert p. induction els as [| el els IH]; intros p; [done |].
  simpl. destruct (IH (page_tick_el p el)) as [-> ->].
  unfold page_tick_el. destruct (decide _); [done |].
  by destruct (entities (scene p) !! el).
Qed.

(** A component that was removed stays removed. *)
Lemma removed_grows (p : Page) (pevs : list PageEvent) (el : nat) :
  (el ∈ focus_removed p → el ∈ focus_removed (page_run p pevs))
  ∧ (el ∈ drag_removed p → el ∈ drag_removed (page_run p pevs)).
Proof.
  revert p. induction pevs as [| pev pevs IH]; intros p; [done |].
  unfold page_run in *. simpl.
  destruct (IH (page_step p pev)) as [IHf IHd].
  split; intros Hin; [apply IHf | apply IHd].
  - destruct pev as [[] | |]; simpl; try done.
    + by rewrite (proj1 (page_tick_removed p _)).
    + by apply list_elem_of_further.
    + by destruct (entities (scene p) !! el0).
  - destruct pev as [[] | |]; simpl; try done.
    + by rewrite (proj2 (page_tick_removed p _)).
    + destruct (entities (scene p) !! el0); [| done].
      by apply list_elem_of_further.
Qed.

Lemma page_tick_length (p : Page) (els : list nat) :
  length (entities (scene (fold_left page_tick_el els p)))
  = length (entities (scene p)).
Proof.
  revert p. induction els as [| el els IH]; intros p; [done |].
  simpl. rewrite IH. unfold page_tick_el. destruct (decide _); [done |].
  destruct (entities (scene p) !! el); [| done]. simpl.
  by rewrite length_insert.
Qed.

(** No ring appears or disappears on the page. *)
Lemma page_run_length (p : Page) (pevs : list PageEvent) :
  length (entities (scene (page_run p pevs))) = length (entities (scene p)).
Proof.
  revert p. induction pevs as [| pev pevs IH]; intros p; [done |].
  unfold page_run in *. simpl. rewrite IH.
  assert (Hview : ∀ s',
    (_attached ∘ drag_rotate) <$> entities s'
    = (_attached ∘ drag_rotate) <$> entities (scene p) →
    length (entities s') = length (entities (scene p))).
  { intros s' Hv. apply (f_equal length) in Hv.
    by rewrite !length_fmap in Hv. }
  destruct pev as [[] | |]; simpl; try done;
    try (apply Hview, deliver_attached).
  - apply Hview.
    exact (view_callbacks (_attached ∘ drag_rotate)
             (λ _ _, eq_refl) (λ _ _ _, eq_refl) time
             (rafQueue (scene p))
             (mkScene (ring_manager (scene p)) (entities (scene p)) []
                      (dispatched (scene p)))).
  - apply page_tick_length.
  - by destruct (entities (scene p) !! el).
Qed.

(** The callbacks registered at all belong to components that are
    attached to an existing ring. *)
Lemma registered_callbacks (p : Page) (t : Target) (ty : EventType)
    (cb : Callback) :
  page_inv p →
  cb ∈ listeners p t ty →
  match cb with
  | ring_focus_onClick el | ring_focus_onClose el =>
      el ∈ live (focus_removed p) (length (entities (scene p)))
  | drag_rotate_onPointerDown el | drag_rotate_onPointerUp el
  | drag_rotate_onPointerMove el =>
      el ∈ live (drag_removed p) (length (entities (scene p)))
  end.
Proof.
  intros Hinv Hin.
  destruct (decide (t = Window ∧ is_move ty = true)) as [[-> Hty] | Hk].
  - apply (pi_move p Hinv ty cb Hty) in Hin as (el & r & -> & Hr & Hel & _).
    apply elem_of_live. split; [by apply lookup_lt_is_Some | done].
  - rewrite (pi_base p Hinv t ty) in Hin.
    + destruct t as [| el], ty; cbn [base_listeners] in Hin;
        try (by apply elem_of_nil in Hin);
        try (apply list_elem_of_fmap in Hin as (el' & -> & Hin); done);
        case_decide; try (by apply elem_of_nil in Hin);
        by apply list_elem_of_singleton in Hin as ->.
    + destruct (is_move ty) eqn:Hty; [right | by left].
      intros ->. by apply Hk.
Qed.

(** X18: Teardown leaves no listener behind: once [remove] of a ring's
    [ring-focus] component has run, neither its click listener nor its close
    listener is registered on any target for any event type, whatever
    happens afterwards; likewise, after [remove] of its [drag-rotate]
    component, none of its pointer-down, pointer-move and pointer-up
    listeners is. *)
Theorem teardown_releases_listeners (rings : list (Object3D * Qc))
    (before after : list PageEvent) (el : nat) (t : Target)
    (ty : EventType) :
  (let p := page_run (page_init rings)
                     (before ++ RemoveRingFocus el :: after) in
   (ring_focus_onClick el ∉ listeners p t ty)
   ∧ (ring_focus_onClose el ∉ listeners p t ty))
  ∧ (let p := page_run (page_init rings)
                       (before ++ RemoveDragRotate el :: after) in
     (drag_rotate_onPointerDown el ∉ listeners p t ty)
     ∧ (drag_rotate_onPointerMove el ∉ listeners p t ty)
     ∧ (drag_rotate_onPointerUp el ∉ listeners p t ty)).
Proof.
  split; intros p.
  - assert (Hrem : el ∈ focus_removed p).
    { subst p. unfold page_run. rewrite fold_left_app. simpl.
      apply removed_grows. simpl. apply list_elem_of_here. }
    pose proof (page_inv_run rings (before ++ RemoveRingFocus el :: after))
      as Hinv. fold p in Hinv.
    split; intros Hin;
      apply (registered_callbacks p t ty _ Hinv) in Hin;
      apply elem_of_live in Hin as [_ Hin]; done.
  - pose proof (page_inv_run rings (before ++ RemoveDragRotate el :: after))
      as Hinv. fold p in Hinv.
    assert (Hrem : el ∈ live (drag_removed p) (length (entities (scene p)))
                   → False).
    { rewrite elem_of_live. intros [Hlt Hnin]. apply Hnin. subst p.
      rewrite page_run_length in Hlt.
      unfold page_run. rewrite fold_left_app. simpl.
      apply removed_grows.
      set (p0 := fold_left page_step before (page_init rings)).
      assert (Hlt0 : (el < length (entities (scene p0)))%nat).
      { pose proof (page_run_length (page_init rings) before) as H.
        unfold page_run in H. subst p0. by rewrite H. }
      apply lookup_lt_is_Some in Hlt0 as [r Hr]. simpl. rewrite Hr. simpl.
      apply list_elem_of_here. }
    repeat split; intros Hin;
      by apply (registered_callbacks p t ty _ Hinv) in Hin.
Qed.


(** ** Handlers touch their own ring only *)

Lemma onClick_other (el el' : nat) (now : Qc) (cam : Camera) (s : Scene) :
  el' ≠ el →
  entities (onClick el' now cam s) !! el = entities s !! el.
Proof.
  intros Hne. unfold onClick.
  destruct (entities s !! el'); [| done].
  destruct (manager.isBusy _); [done |].
  destruct (_ || _); [done |]. simpl. by apply list_lookup_insert_ne.
Qed.

Lemma onClose_other (el el' : nat) (now : Qc) (s : Scene) :
  el' ≠ el →
  entities (onClose el' now s) !! el = entities s !! el.
Proof.
  intros Hne. unfold onClose.
  destruct (entities s !! el'); [| done].
  destruct (negb _); [done |].
  destruct (manager.isBusy _); [done |]. simpl.
  by apply list_lookup_insert_ne.
Qed.

Lemma invoke_other (cb : Callback) (ev : Event) (s : Scene) (el : nat) :
  callback_ring cb ≠ el →
  entities (invoke cb ev s) !! el = entities s !! el.
Proof.
  intros Hne. destruct cb, ev; simpl in *; try done;
    first [ by apply onClick_other | by apply onClose_other
          | by apply lookup_update_entity_ne ].
Qed.

Lemma fold_invoke_other (ev : Event) (cbs : list Callback) (s : Scene)
    (el : nat) :
  (∀ cb, cb ∈ cbs → callback_ring cb ≠ el) →
  entities (fold_left (λ s cb, invoke cb ev s) cbs s) !! el
  = entities s !! el.
Proof.
  revert s. induction cbs as [| cb cbs IH]; intros s Hall; [done |].
  simpl. rewrite IH.
  - apply invoke_other, Hall, list_elem_of_here.
  - intros cb' Hin. by apply Hall, list_elem_of_further.
Qed.

Lemma page_tick_other (p : Page) (els : list nat) (el : nat) :
  el ∈ drag_removed p →
  entities (scene (fold_left page_tick_el els p)) !! el
  = entities (scene p) !! el.
Proof.
  revert p. induction els as [| el' els IH]; intros p Hrem; [done |].
  simpl.
  assert (Hstep : drag_removed (page_tick_el p el') = drag_removed p
                  ∧ entities (scene (page_tick_el p el')) !! el
                    = entities (scene p) !! el).
  { unfold page_tick_el.
    destruct (decide (el' ∈ drag_removed p)) as [| Hlive]; [done |].
    destruct (entities (scene p) !! el'); [| done]. simpl.
    split; [done |]. apply list_lookup_insert_ne. by intros ->. }
  destruct Hstep as [Hdr Hlook]. rewrite IH; [done |]. by rewrite Hdr.
Qed.

(** X19: A removed component is inert. After [remove] of a ring's
    [drag-rotate] component no pointer event and no tick changes that ring;
    after [remove] of its [ring-focus] component a click on the ring leaves
    the scene as it is and a close notification leaves the ring as it is. *)
Theorem removed_components_are_inert (rings : list (Object3D * Qc))
    (pevs : list PageEvent) (el : nat) :
  let p := page_run (page_init rings) pevs in
  (el ∈ drag_removed p →
   ∀ ev, is_drag_event ev = true →
     entities (scene (page_step p (Dom ev))) !! el
     = entities (scene p) !! el)
  ∧ (el ∈ focus_removed p →
     (∀ now cam, scene (page_step p (Dom (Click el now cam))) = scene p)
     ∧ (∀ now,
          entities (scene (page_step p (Dom (CloseFocusedRing now)))) !! el
          = entities (scene p) !! el)).
Proof.
  intros p. pose proof (page_inv_run rings pevs) as Hinv. fold p in Hinv.
  assert (Hother : ∀ t ty cb,
    cb ∈ listeners p t ty →
    match cb with
    | ring_focus_onClick _ | ring_focus_onClose _ => el ∈ focus_removed p
    | _ => el ∈ drag_removed p
    end → callback_ring cb ≠ el).
  { intros t ty cb Hin Hrem Heq.
    apply (registered_callbacks p t ty _ Hinv) in Hin.
    destruct cb; simpl in *; subst;
      apply elem_of_live in Hin as [_ Hin]; done. }
  split.
  - intros Hrem ev Hev.
    destruct ev as [| | | el0 evt | evt | |]; try discriminate Hev; simpl.
    + apply fold_invoke_other. intros cb Hin.
      pose proof Hin as Hin'. simpl in Hin'.
      rewrite (pi_base p Hinv) in Hin'
        by (left; by destruct (touches evt)).
      assert (Hcb : cb = drag_rotate_onPointerDown el0).
      { destruct (touches evt); cbn [base_listeners] in Hin';
          case_decide; try (by apply elem_of_nil in Hin');
          by apply list_elem_of_singleton in Hin'. }
      subst cb. by apply (Hother _ _ _ Hin).
    + apply fold_invoke_other. intros cb Hin.
      pose proof Hin as Hin'. simpl in Hin'.
      apply (pi_move p Hinv) in Hin' as (el' & r & -> & _);
        [| by destruct (touches evt)].
      by apply (Hother _ _ _ Hin).
    + apply fold_invoke_other. intros cb Hin.
      pose proof Hin as Hin'. simpl in Hin'.
      rewrite (pi_base p Hinv) in Hin' by (by left).
      cbn [base_listeners] in Hin'.
      apply list_elem_of_fmap in Hin' as (el' & -> & _).
      by apply (Hother _ _ _ Hin).
    + by apply page_tick_other.
  - intros Hrem. split.
    + intros now cam. simpl. unfold deliver. simpl.
      rewrite (pi_base p Hinv) by (by left). cbn [base_listeners].
      rewrite decide_False; [done |].
      rewrite elem_of_live. by intros [_ ?].
    + intros now. simpl. apply fold_invoke_other.
      intros cb Hin. pose proof Hin as Hin'. simpl in Hin'.
      rewrite (pi_base p Hinv) in Hin' by (by left).
      cbn [base_listeners] in Hin'.
      apply list_elem_of_fmap in Hin' as (el' & -> & _).
      by apply (Hother _ _ _ Hin).
Qed.

Lemma removed_components_are_inert_witness :
  entities (scene (page_step
                     (page_run (page_init sample_rings) [RemoveDragRotate 0%nat])
                     (Dom (PointerDown 0%nat (mouse 5))))) !! 0%nat
  = entities (scene (page_run (page_init sample_rings)
                              [RemoveDragRotate 0%nat])) !! 0%nat.
Proof.
  refine (proj1 (removed_components_are_inert sample_rings
                   [RemoveDragRotate 0%nat] 0%nat) _ _ _).
  - apply list_elem_of_here.
  - reflexivity.
Defined.

(** ** The page without teardown is the scene of the claims *)

Lemma Scene_eq (s s' : Scene) :
  ring_manager s = ring_manager s' → entities s = entities s' →
  rafQueue s = rafQueue s' → dispatched s = dispatched s' → s = s'.
Proof. destruct s, s'. simpl. by intros -> -> -> ->. Qed.

(** Updating the rings of a duplicate-free list one after the other. *)
Lemma fold_update_entities (f : Entity → Entity) (els : list nat)
    (s : Scene) :
  NoDup els →
  let s' := fold_left (λ s el, update_entity el f s) els s in
  ring_manager s' = ring_manager s
  ∧ rafQueue s' = rafQueue s
  ∧ dispatched s' = dispatched s
  ∧ ∀ i, entities s' !! i =
         if decide (i ∈ els) then f <$> entities s !! i else entities s !! i.
Proof.
  revert s. induction els as [| el els IH]; intros s Hnd; simpl.
  - by repeat split.
  - apply list.NoDup_cons in Hnd as [Hnin Hnd].
    destruct (IH (update_entity el f s) Hnd) as (-> & -> & -> & Hlook).
    destruct (update_entity_rest s el f) as (-> & -> & ->).
    repeat split. intros i. rewrite Hlook.
    destruct (decide (i = el)) as [-> | Hne].
    + rewrite decide_False by done.
      rewrite decide_True by apply list_elem_of_here.
      destruct (entities s !! el) as [r |] eqn:Hel.
      * by rewrite (lookup_update_entity el f s r Hel).
      * unfold update_entity. by rewrite Hel, Hel.
    + rewrite lookup_update_entity_ne by done.
      apply decide_ext. rewrite elem_of_cons. tauto.
Qed.

Lemma fold_left_fmap_list {A B C} (g : A → B) (h : C → B → C) (l : list A)
    (c : C) :
  fold_left h (g <$> l) c = fold_left (λ c a, h c (g a)) l c.
Proof.
  revert c. induction l as [| a l IH]; intros c; [done |]. simpl. apply IH.
Qed.

Lemma page_tick_scene (p : Page) (els : list nat) :
  drag_removed p = [] →
  scene (fold_left page_tick_el els p)
  = fold_left (λ s el, update_entity el tick s) els (scene p).
Proof.
  revert p. induction els as [| el els IH]; intros p Hdr; [done |].
  simpl.
  assert (Hstep : drag_removed (page_tick_el p el) = []
                  ∧ scene (page_tick_el p el)
                    = update_entity el tick (scene p)).
  { unfold page_tick_el, update_entity. rewrite Hdr.
    rewrite decide_False by apply not_elem_of_nil.
    by destruct (entities (scene p) !! el). }
  destruct Hstep as [Hdr' Hs]. by rewrite IH, Hs.
Qed.

Lemma update_all_entities (f : Entity → Entity) (s : Scene) :
  fold_left (λ s el, update_entity el f s) (seq 0 (length (entities s))) s
  = map_entities f s.
Proof.
  destruct (fold_update_entities f (seq 0 (length (entities s))) s
              (NoDup_seq _ _)) as (Hm & Hq & Hd & Hlook).
  apply Scene_eq; try done. simpl. apply list_eq. intros i.
  rewrite Hlook, list_lookup_fmap.
  destruct (decide (i ∈ seq 0 (length (entities s)))) as [| Hnin]; [done |].
  rewrite lookup_ge_None_2; [done |].
  rewrite elem_of_seq in Hnin. lia.
Qed.

(** One event on a page from which nothing was removed is one [step] of
    the scene. *)
Lemma page_step_simulates (p : Page) (ev : Event) :
  page_inv p → focus_removed p = [] → drag_removed p = [] →
  scene (page_step p (Dom ev)) = step (scene p) ev
  ∧ focus_removed (page_step p (Dom ev)) = []
  ∧ drag_removed (page_step p (Dom ev)) = [].
Proof.
  intros Hinv Hfr Hdr.
  set (n := length (entities (scene p))).
  assert (Hlive : ∀ el, el ∈ live [] n ↔ (el < n)%nat).
  { intros el. rewrite elem_of_live. split; [by intros [? _] |].
    intros ?. split; [done | apply not_elem_of_nil]. }
  destruct ev as [el now cam | now | time | el evt | evt | |]; simpl.
  - (* click *)
    split; [| done]. unfold deliver. simpl.
    rewrite (pi_base p Hinv) by (by left). cbn [base_listeners].
    rewrite Hfr. fold n. destruct (decide (el ∈ live [] n)) as [| Hnin];
      [done |].
    simpl. unfold onClick. rewrite lookup_ge_None_2; [done |].
    rewrite Hlive in Hnin. unfold n in Hnin. lia.
  - (* close *)
    split; [| done]. unfold deliver, dispatchClose. simpl.
    rewrite (pi_base p Hinv) by (by left). cbn [base_listeners].
    by rewrite Hfr, live_nil, fold_left_fmap_list.
  - done.
  - (* pointer-down *)
    split; [| done]. unfold deliver. simpl.
    rewrite (pi_base p Hinv) by (left; by destruct (touches evt)).
    rewrite Hdr. fold n.
    assert (Hbase : base_listeners n (focus_removed p) []
                      (El el)
                      match touches evt with
                      | [] => mousedown
                      | _ :: _ => touchstart
                      end
                    = if decide (el ∈ live [] n)
                      then [drag_rotate_onPointerDown el] else [])
      by (by destruct (touches evt)).
    rewrite Hbase. destruct (decide (el ∈ live [] n)) as [| Hnin]; [done |].
    simpl. unfold update_entity. rewrite lookup_ge_None_2; [done |].
    rewrite Hlive in Hnin. unfold n in Hnin. lia.
  - (* pointer-move *)
    split; [| done]. unfold deliver. simpl.
    set (ty := match touches evt with [] => mousemove | _ => touchmove end).
    assert (Hty : is_move ty = true) by (subst ty; by destruct (touches evt)).
    pose proof (pi_move_nodup p Hinv ty Hty) as Hnd.
    pose proof (λ cb, pi_move p Hinv ty cb Hty) as Hmove.
    set (cbs := listeners p Window ty) in *.
    assert (Hform : ∀ cb, cb ∈ cbs →
              cb = drag_rotate_onPointerMove (callback_ring cb)).
    { intros cb Hin. by apply Hmove in Hin as (el & r & -> & _). }
    assert (Hfold : ∀ s,
      fold_left (λ s cb, invoke cb (PointerMove evt) s) cbs s
      = fold_left (λ s el, update_entity el (onPointerMove evt) s)
                  (callback_ring <$> cbs) s).
    { clear Hnd Hmove. induction cbs as [| cb cbs IH]; intros s; [done |].
      simpl. rewrite <- IH.
      - by rewrite (Hform cb) at 1 by apply list_elem_of_here.
      - intros cb' Hin. by apply Hform, list_elem_of_further. }
    rewrite Hfold.
    assert (Hnd' : NoDup (callback_ring <$> cbs)).
    { apply NoDup_fmap_2_strong; [| done].
      intros x y Hx Hy Heq. rewrite (Hform x Hx), (Hform y Hy). by rewrite Heq. }
    destruct (fold_update_entities (onPointerMove evt) _ (scene p) Hnd')
      as (Hm & Hq & Hd & Hlook).
    apply Scene_eq; try done. simpl. apply list_eq. intros i.
    rewrite Hlook, list_lookup_fmap.
    destruct (entities (scene p) !! i) as [r |] eqn:Hi;
      [| by destruct (decide _)].
    simpl. destruct (_attached (drag_rotate r)) eqn:Ha.
    + rewrite decide_True; [done |].
      apply list_elem_of_fmap. exists (drag_rotate_onPointerMove i).
      split; [done |]. apply Hmove. exists i, r. repeat split; try done.
      rewrite Hdr. apply not_elem_of_nil.
    + rewrite decide_False; [done |].
      intros (cb & -> & Hin)%list_elem_of_fmap.
      apply Hmove in Hin as (el & r' & -> & _ & Hel & Ha'). simpl in *.
      congruence.
  - (* pointer-up *)
    split; [| done]. unfold deliver. simpl.
    rewrite (pi_base p Hinv) by (by left). cbn [base_listeners].
    rewrite Hdr, live_nil, fold_left_fmap_list.
    apply (update_all_entities onPointerUp).
  - (* tick *)
    destruct (page_tick_removed p (seq 0 (length (entities (scene p)))))
      as [Hfr' Hdr'].
    split; [| by rewrite Hfr', Hdr'].
    rewrite page_tick_scene by done. apply (update_all_entities tick).
Qed.

(** X20: The scene of the page is the scene of the transition system: when
    no component is removed, delivering the events through the listeners the
    components registered gives exactly the run of [step]. *)
Theorem page_simulates_scene (rings : list (Object3D * Qc))
    (evs : list Event) :
  scene (page_run (page_init rings) (Dom <$> evs))
  = run (init_scene rings) evs.
Proof.
  assert (H : ∀ p,
    page_inv p → focus_removed p = [] → drag_removed p = [] →
    scene (page_run p (Dom <$> evs)) = run (scene p) evs).
  { induction evs as [| ev evs IH]; intros p Hinv Hfr Hdr; [done |].
    unfold page_run, run in *. rewrite fmap_cons. cbn [fold_left].
    destruct (page_step_simulates p ev Hinv Hfr Hdr) as (Hs & Hfr' & Hdr').
    rewrite IH by (try done; by apply page_inv_step). by rewrite Hs. }
  by apply H; [apply page_inv_init | |].
Qed.

(** X21: The [_attached] flag tells whether the move listeners are there. On
    every page the components can reach, removed or not, a ring whose
    [drag-rotate] component is attached has its move callback registered on
    the window, for [mousemove] and for [touchmove] alike, exactly when its
    [_attached] flag is set; and no callback is registered twice for the
    same target and type. *)
Theorem attached_flag_tracks_listeners (rings : list (Object3D * Qc))
    (pevs : list PageEvent) :
  let p := page_run (page_init rings) pevs in
  (∀ el r ty,
     entities (scene p) !! el = Some r → el ∉ drag_removed p →
     is_move ty = true →
     (drag_rotate_onPointerMove el ∈ listeners p Window ty
      ↔ _attached (drag_rotate r) = true))
  ∧ (∀ t ty, NoDup (listeners p t ty)).
Proof.
  intros p. pose proof (page_inv_run rings pevs) as Hinv. fold p in Hinv.
  split.
  - intros el r ty Hel Hlive Hty.
    rewrite (pi_move p Hinv ty _ Hty). split.
    + intros (el' & r' & [= <-] & _ & Hel' & Ha). congruence.
    + intros Ha. by exists el, r.
  - intros t ty.
    destruct (decide (t = Window ∧ is_move ty = true)) as [[-> Hty] | Hk].
    + by apply (pi_move_nodup p Hinv).
    + rewrite (pi_base p Hinv).
      * assert (Hl : ∀ removed n, NoDup (live removed n))
          by (intros; apply list.NoDup_filter, NoDup_seq).
        destruct t as [| el], ty; cbn [base_listeners];
          try apply NoDup_nil_2;
          try (apply (NoDup_fmap_2 _), Hl);
          case_decide; first [ apply NoDup_nil_2 | apply NoDup_singleton ].
      * destruct (is_move ty) eqn:Hty; [right | by left].
        intros ->. by apply Hk.
Qed.

Lemma attached_flag_tracks_listeners_witness :
  drag_rotate_onPointerMove 0%nat
    ∈ listeners (page_run (page_init sample_rings)
                   [Dom (PointerDown 0%nat (mouse 100)); Dom Tick])
                Window mousemove.
Proof.
  refine (proj2 (proj1 (attached_flag_tracks_listeners sample_rings
            [Dom (PointerDown 0%nat (mouse 100)); Dom Tick])
            0%nat _ mousemove eq_refl _ eq_refl) _).
  - apply not_elem_of_nil.
  - reflexivity.
Defined.

Lemma focus_events_keep_drag_state_witness :
  drag_rotate <$> entities (step sample_focusing (AnimationFrame (num 300 1)))
  = drag_rotate <$> entities sample_focusing.
Proof.
  by apply (focus_events_keep_drag_state sample_focusing
              (AnimationFrame (num 300 1))).
Defined.
